(** * jobTree: the job store's recovery sweep and the worker's chain loop

    A shallow embedding of [jobTree/jobStores/abstractJobStore.py] and of
    [jobTree/worker.py].  Python statements that touch the job store are
    written in a state-and-exception monad over a [World]: the backing store,
    the attributes of the store handle, the worker's local log file and the
    trace of store calls.  An exception keeps the effects made before it. *)

From Stdlib Require Import ZArith NArith Ascii String List.
From Stdlib.Strings Require Import Byte.
From stdpp Require Import gmap strings list fin_maps.

Set Warnings "-abstract-large-number,-clear-no-such-hyp".

Local Open Scope Z_scope.
Local Open Scope string_scope.
Local Open Scope list_scope.

(** ** Data model *)

(** An entry of a successor group, as [worker.py] line 312 unpacks it:
    [jobStoreID, memory, cpu, predecessorID = jobs[0]]. *)
Record Successor := mkSuccessor {
  sJobStoreID : string;
  sMemory : Z;
  sCpu : Z;
  sPredecessorID : option string;
}.

(** Modelled from the spec: the class [Job] (jobTree/job.py) is not among the
    sources; its attributes are those of the data model, which are also the
    ones [jobStoreTest.py] reads.  [stack] is a Python list whose last
    element is the top group; [jobsToDelete] is iterated and measured with
    [len], so it is a list. *)
Record Job := mkJob {
  jobStoreID : string;
  command : option string;
  memory : Z;
  cpu : Z;
  updateID : string;
  stack : list (list Successor);
  predecessorNumber : nat;
  predecessorsFinished : list string;
  jobsToDelete : list string;
  logJobStoreFileID : option N;
  remainingRetryCount : Z;
}.

Definition set_command (c : option string) (j : Job) : Job :=
  mkJob (jobStoreID j) c (memory j) (cpu j) (updateID j) (stack j)
        (predecessorNumber j) (predecessorsFinished j) (jobsToDelete j)
        (logJobStoreFileID j) (remainingRetryCount j).

Definition set_stack (s : list (list Successor)) (j : Job) : Job :=
  mkJob (jobStoreID j) (command j) (memory j) (cpu j) (updateID j) s
        (predecessorNumber j) (predecessorsFinished j) (jobsToDelete j)
        (logJobStoreFileID j) (remainingRetryCount j).

Definition set_jobsToDelete (d : list string) (j : Job) : Job :=
  mkJob (jobStoreID j) (command j) (memory j) (cpu j) (updateID j) (stack j)
        (predecessorNumber j) (predecessorsFinished j) d
        (logJobStoreFileID j) (remainingRetryCount j).

Definition set_logJobStoreFileID (f : option N) (j : Job) : Job :=
  mkJob (jobStoreID j) (command j) (memory j) (cpu j) (updateID j) (stack j)
        (predecessorNumber j) (predecessorsFinished j) (jobsToDelete j)
        f (remainingRetryCount j).

Definition set_remainingRetryCount (n : Z) (j : Job) : Job :=
  mkJob (jobStoreID j) (command j) (memory j) (cpu j) (updateID j) (stack j)
        (predecessorNumber j) (predecessorsFinished j) (jobsToDelete j)
        (logJobStoreFileID j) n.

(** What the source hands to [exists]: a [jobStoreID], or a whole entry of
    a successor group ([_clean] line 307, [worker.py] line 234). *)
Inductive Key :=
  | KeyID (id : string)
  | KeyEntry (entry : Successor).

(** Calls that reach the backing store or the process, in program order. *)
Inductive Event :=
  | EvUpdate (id : string)
  | EvDelete (id : string)
  | EvWriteFile (f : N)
  | EvDeleteFile (f : N)
  | EvWriteShared (name : string)
  | EvStats (messages : list string).

(** The backing store (job records keyed by [jobStoreID], per-job files
    keyed by an opaque ID numbered in order of allocation and carrying their
    owner, shared files keyed by name), the attribute [jobsToDelete] that
    [worker.py] line 350 sets on the store handle, the local file
    [worker_log.txt], and the trace. *)
Record World := mkWorld {
  jobRecords : gmap string Job;
  jobFiles : gmap N (string * list byte);
  sharedFiles : gmap string (list byte);
  rootCreated : bool;
  nextFileID : N;
  handleJobsToDelete : option (list string);
  workerLog : option (list byte);
  trace : list Event;
}.

Definition set_jobRecords (m : gmap string Job) (w : World) : World :=
  mkWorld m (jobFiles w) (sharedFiles w) (rootCreated w) (nextFileID w)
          (handleJobsToDelete w) (workerLog w) (trace w).

Definition set_jobFiles (m : gmap N (string * list byte)) (w : World) : World :=
  mkWorld (jobRecords w) m (sharedFiles w) (rootCreated w) (nextFileID w)
          (handleJobsToDelete w) (workerLog w) (trace w).

Definition set_sharedFiles (m : gmap string (list byte)) (w : World) : World :=
  mkWorld (jobRecords w) (jobFiles w) m (rootCreated w) (nextFileID w)
          (handleJobsToDelete w) (workerLog w) (trace w).

Definition set_nextFileID (n : N) (w : World) : World :=
  mkWorld (jobRecords w) (jobFiles w) (sharedFiles w) (rootCreated w) n
          (handleJobsToDelete w) (workerLog w) (trace w).

Definition set_handleJobsToDelete (d : option (list string)) (w : World) : World :=
  mkWorld (jobRecords w) (jobFiles w) (sharedFiles w) (rootCreated w)
          (nextFileID w) d (workerLog w) (trace w).

Definition set_workerLog (l : option (list byte)) (w : World) : World :=
  mkWorld (jobRecords w) (jobFiles w) (sharedFiles w) (rootCreated w)
          (nextFileID w) (handleJobsToDelete w) l (trace w).

Definition emit (e : Event) (w : World) : World :=
  mkWorld (jobRecords w) (jobFiles w) (sharedFiles w) (rootCreated w)
          (nextFileID w) (handleJobsToDelete w) (workerLog w) (trace w ++ [e]).

(** ** The monad of store programs *)

Inductive exn :=
  | NoSuchJobException (id : string)
  | NoSuchFileException (f : N)
  | NoSuchSharedFile (name : string)
  | ParseError
  | AssertionError
  | IndexError
  | NameError (name : string)
  | AttributeError (name : string)
  | OSError (path : string)
  | PayloadError (msg : string)
  | ValueError (msg : string).

Definition M (A : Type) : Type := World → World * (exn + A).

Definition ret {A} (a : A) : M A := λ w, (w, inr a).

Definition bind {A B} (m : M A) (k : A → M B) : M B :=
  λ w, match m w with
       | (w', inr a) => k a w'
       | (w', inl e) => (w', inl e)
       end.

Definition raise {A} (e : exn) : M A := λ w, (w, inl e).

(** [try: m except: h], with [h] receiving the exception. *)
Definition try_except {A} (m : M A) (h : exn → M A) : M A :=
  λ w, match m w with
       | (w', inr a) => (w', inr a)
       | (w', inl e) => h e w'
       end.

Definition get : M World := λ w, (w, inr w).
Definition modify (f : World → World) : M unit := λ w, (f w, inr tt).

Declare Scope py_scope.
Delimit Scope py_scope with py.
Notation "x <- m ;; k" := (bind m (λ x, k))
  (at level 100, m at next level, right associativity) : py_scope.
Notation "m ;;; k" := (bind m (λ _, k))
  (at level 100, right associativity) : py_scope.
Local Open Scope py_scope.

(** [try: m except: ...] with the outcome of [m], its exception or its
    value, handed on as a value. *)
Definition attempt {A} (m : M A) : M (exn + A) :=
  try_except (a <- m ;; ret (inr a)) (λ e, ret (inl e)).

Definition assert (b : bool) : M unit :=
  if b then ret tt else raise AssertionError.

(** [for x in l: body x] *)
Fixpoint forEach {A} (l : list A) (body : A → M unit) : M unit :=
  match l with
  | [] => ret tt
  | x :: l' => body x ;;; forEach l' body
  end.

(** ** The abstract store operations

    [AbstractJobStore] declares [started], [jobs], [exists], [load],
    [update], [delete] and the file operations abstract; the file and AWS
    stores that implement them are not among the sources.  Each operation
    below follows its docstring in [abstractJobStore.py] and sections 4.1
    and 4.2 of the specification. *)

(** Modelled from the spec: [started] has no implementation in the sources.
    "Returns True if the jobStore contains existing jobs (i.e. if create has
    already been called), else False." *)
Definition started : M bool := λ w, (w, inr (rootCreated w)).

(** Modelled from the spec: [exists] has no implementation in the sources.
    "Returns true if the job is in the store, else false." *)
Definition existsIn (w : World) (id : string) : bool :=
  bool_decide (is_Some (jobRecords w !! id)).

Definition exists_ (id : string) : M bool := λ w, (w, inr (existsIn w id)).

(** Modelled from the spec: the same docstring for any argument.  The
    records are filed under their [jobStoreID], a string; no job is in the
    store under a 4-tuple, so an entry handed over whole is answered
    [False]. *)
Definition existsKey (w : World) (k : Key) : bool :=
  match k with
  | KeyID id => existsIn w id
  | KeyEntry _ => false
  end.

(** [self.exists(entry)] for an entry of a successor group. *)
Definition entryExists (w : World) (entry : Successor) : bool :=
  existsKey w (KeyEntry entry).

(** Modelled from the spec: [load] has no implementation in the sources.
    "raises: NoSuchJobException if there is no job with the given
    jobStoreID" *)
Definition load (id : string) : M Job :=
  λ w, match jobRecords w !! id with
       | Some j => (w, inr j)
       | None => (w, inl (NoSuchJobException id))
       end.

(** Modelled from the spec: [update] has no implementation in the sources.
    "Persists the job in this store atomically." *)
Definition update (job : Job) : M unit :=
  modify (λ w, emit (EvUpdate (jobStoreID job))
                 (set_jobRecords (<[jobStoreID job := job]> (jobRecords w)) w)).

(** Modelled from the spec: [delete] has no implementation in the sources.
    "Removes from store atomically ... deleting a job twice or deleting a
    non-existent job will succeed silently."  The files written under the job
    go with it ([writeFile]'s docstring).  The source calls it with a
    [jobStoreID] (lines 292 and 352) and with a job (line 429); both are the
    deletion of that ID. *)
Definition delete_ (id : string) : M unit :=
  modify (λ w, emit (EvDelete id)
                 (set_jobFiles (filter (λ kv, kv.2.1 ≠ id) (jobFiles w))
                    (set_jobRecords (delete id (jobRecords w)) w))).

(** Modelled from the spec: [jobs] has no implementation in the sources.
    "Returns iterator on the jobs in the store."  The enumeration is a
    snapshot taken when the loop starts. *)
Definition jobsOf (w : World) : list Job := (map_to_list (jobRecords w)).*2.
Definition jobs : M (list Job) := λ w, (w, inr (jobsOf w)).

(** Modelled from the spec: [deleteFile] has no implementation in the
    sources.  "Deletes the file with the given ID from this job store.
    Throws an exception if the file does not exist." *)
Definition deleteFile (f : N) : M unit :=
  λ w, match jobFiles w !! f with
       | Some _ => (emit (EvDeleteFile f) (set_jobFiles (delete f (jobFiles w)) w), inr tt)
       | None => (w, inl (NoSuchFileException f))
       end.

(** Modelled from the spec: [writeFile] has no implementation in the
    sources.  "Takes a file (as a path) and places it in this job store.
    Returns an ID that can be used to retrieve the file at a later time." *)
Definition writeFile (owner : string) (content : list byte) : M N :=
  λ w, let f := nextFileID w in
       (emit (EvWriteFile f)
          (set_nextFileID (N.succ f)
             (set_jobFiles (<[f := (owner, content)]> (jobFiles w)) w)),
        inr f).

(** Modelled from the spec: [writeSharedFileStream] has no implementation in
    the sources; the scope that writes [content] to the shared file [name],
    replacing it. *)
Definition writeSharedFileStream (name : string) (content : list byte) : M unit :=
  modify (λ w, emit (EvWriteShared name)
                 (set_sharedFiles (<[name := content]> (sharedFiles w)) w)).

(** Modelled from the spec: [readSharedFileStream] has no implementation in
    the sources; the scope that reads the whole shared file [name]. *)
Definition readSharedFileStream (name : string) : M (list byte) :=
  λ w, match sharedFiles w !! name with
       | Some c => (w, inr c)
       | None => (w, inl (NoSuchSharedFile name))
       end.

(** Modelled from the spec: [Job.clearLogFile] (jobTree/job.py) is not among
    the sources; "delete the referenced log file and clear the field". *)
Definition clearLogFile (job : Job) : M Job :=
  match logJobStoreFileID job with
  | Some f => deleteFile f ;;; ret (set_logJobStoreFileID None job)
  | None => ret job
  end.

(** ** [AbstractJobStore._clean] (abstractJobStore.py, lines 276-322) *)

(** Lines 283-286: [jobsToDelete.add(updateID)] for every job and every
    [updateID] in its [jobsToDelete]. *)
Definition collate (js : list Job) : gset string :=
  foldl (λ acc job, foldl (λ acc u, acc ∪ {[u]}) acc (jobsToDelete job)) ∅ js.

(** Lines 291-292, the body of the second loop. *)
Definition deleteBody (toDelete : gset string) (job : Job) : M unit :=
  if bool_decide (updateID job ∈ toDelete)
  then delete_ (jobStoreID job) else ret tt.

(** Lines 289-292. *)
Definition deletePhase (toDelete : gset string) : M unit :=
  if (0 <? size toDelete)%nat then
    js <- jobs ;; forEach js (deleteBody toDelete)
  else ret tt.

(** Lines 306-313, the loop on the stack read from its top: [groups] lists
    the stack top first, the result is the remaining stack (top first) and
    whether line 311 set [changed].  Line 307 hands each element of the top
    group to [exists] as it is; [ex] is what [exists] answers for it. *)
Fixpoint pruneTop (ex : Successor → bool) (groups : list (list Successor))
  : list (list Successor) * bool :=
  match groups with
  | [] => ([], false)
  | top :: below =>
      let live := List.filter ex top in
      if (0 <? length live)%nat then
        if (length live <? length top)%nat
        then (live :: below, true)
        else (top :: below, false)
      else pruneTop ex below
  end.

(** The same loop on the stack in Python's order ([stack[-1]] is last). *)
Definition cleanStack (ex : Successor → bool) (st : list (list Successor))
  : list (list Successor) * bool :=
  let r := pruneTop ex (rev st) in (rev r.1, r.2).

(** Lines 296-322: the body of the third loop, for one job.  The [while]
    loop makes no call but [exists], so the store is read once for it; its
    pops stay in the job object whether or not [changed] is set. *)
Definition cleanJob (job : Job) : M unit :=
  let changed := false in
  let r1 := if negb (length (jobsToDelete job) =? 0)%nat
            then (set_jobsToDelete [] job, true) else (job, changed) in
  w <- get ;;
  let r2 := cleanStack (entryExists w) (stack r1.1) in
  let job2 := set_stack r2.1 r1.1 in
  let changed2 := r1.2 || r2.2 in
  r3 <- match logJobStoreFileID job2 with
        | Some _ => j <- clearLogFile job2 ;; ret (j, true)
        | None => ret (job2, changed2)
        end ;;
  if r3.2 then update r3.1 else ret tt.

(** Lines 295-322. *)
Definition cleanPhase : M unit :=
  js <- jobs ;; forEach js cleanJob.

Definition _clean : M unit :=
  s <- started ;;
  if s then
    js <- jobs ;;
    deletePhase (collate js) ;;;
    cleanPhase
  else ret tt.

(** ** [AbstractJobStore.__init__] and [config] (lines 25-47)

    [ET.ElementTree(config).write] and [ET.parse(...).getroot()] belong to
    the XML library; they are the parameters [serialize] and [parse]. *)
Section Init.
Context {Element : Type}.
Variable serialize : Element → list byte.
Variable parse : list byte → option Element.

(** The store instance: its private [__config], read by [config]. *)
Record Handle := mkHandle { config : Element }.

Definition readConfig : M Element :=
  c <- readSharedFileStream "config.xml" ;;
  match parse c with
  | Some e => ret e
  | None => raise ParseError
  end.

Definition writeConfig (cfg : Element) : M Element :=
  writeSharedFileStream "config.xml" (serialize cfg) ;;; ret cfg.

Definition __init__ (cfg : option Element) : M Handle :=
  c <- match cfg with
       | None => readConfig
       | Some cfg => writeConfig cfg
       end ;;
  _clean ;;;
  ret (mkHandle c).
End Init.

Arguments Handle : clear implicits.

(** ** [sharedFileNameRegex] and [_validateSharedFileName] (lines 211, 270-272)

    The fragment of Python's [re] that the pattern uses, without flags:
    [^] matches at the start of the string, [$] at its end or just before a
    newline that ends it, [[...]+] one or more characters of a class, with
    backtracking. *)
Inductive Re :=
  | ReBol
  | ReEol
  | RePlus (cls : ascii → bool).

Definition newline : ascii := ascii_of_nat 10.

Definition atEol (s : string) : bool :=
  match s with
  | EmptyString => true
  | String c EmptyString => bool_decide (c = newline)
  | _ => false
  end.

(** [matchItems items atStart s]: the items match a prefix of the remaining
    input [s]; [atStart] tells whether [s] is the whole string. *)
Fixpoint matchItems (items : list Re) (atStart : bool) (s : string) : bool :=
  match items with
  | [] => true
  | ReBol :: rest => atStart && matchItems rest atStart s
  | ReEol :: rest => atEol s && matchItems rest atStart s
  | RePlus cls :: rest =>
      (fix plus (s : string) : bool :=
         match s with
         | EmptyString => false
         | String c s' => cls c && (plus s' || matchItems rest false s')
         end) s
  end.

Definition between (lo hi : nat) (c : ascii) : bool :=
  (lo <=? nat_of_ascii c)%nat && (nat_of_ascii c <=? hi)%nat.

(** The class [[a-zA-Z0-9._-]]. *)
Definition nameChar (c : ascii) : bool :=
  between 97 122 c || between 65 90 c || between 48 57 c
  || bool_decide (c = "."%char) || bool_decide (c = "_"%char)
  || bool_decide (c = "-"%char).

Definition sharedFileNameRegex : list Re := [ReBol; RePlus nameChar; ReEol].

(** [bool(cls.sharedFileNameRegex.match(sharedFileName))] *)
Definition _validateSharedFileName (sharedFileName : string) : bool :=
  matchItems sharedFileNameRegex true sharedFileName.

(** What the specification asks of a shared-file name: [[A-Za-z0-9._-]+]. *)
Fixpoint allNameChars (s : string) : bool :=
  match s with
  | EmptyString => true
  | String c s' => nameChar c && allNameChars s'
  end.

Definition validName (s : string) : Prop :=
  s ≠ EmptyString ∧ allNameChars s = true.

(** ** [worker.py] *)

(** [truncateFile] (lines 40-52), on the file's contents. *)
Definition truncateData (tooBig : nat) (data : list byte) : list byte :=
  if (tooBig <? length data)%nat
  then drop (length data - tooBig)%nat data
  else data.

Definition truncateFile (tooBig : nat) : M unit :=
  λ w, match workerLog w with
       | Some data => (set_workerLog (Some (truncateData tooBig data)) w, inr tt)
       | None => (w, inl (OSError "worker_log.txt"))
       end.

(** Modelled from the spec: [Job.setupJobAfterFailure] (jobTree/job.py) is
    not among the sources; section 4.7,
    [remainingRetryCount := max(0, remainingRetryCount - 1)]. *)
Definition setupJobAfterFailure (job : Job) : Job :=
  set_remainingRetryCount (Z.max 0 (remainingRetryCount job - 1)) job.

(** Modelled from the spec: [Job.setLogFile] (jobTree/job.py) is not among
    the sources; "upload it as a new file, set [J.logJobStoreFileID] to its
    ID". *)
Definition setLogFile (job : Job) : M Job :=
  w <- get ;;
  match workerLog w with
  | Some data =>
      f <- writeFile (jobStoreID job) data ;;
      ret (set_logJobStoreFileID (Some f) job)
  | None => raise (OSError "worker_log.txt")
  end.

(** Modelled from the spec: the store classes are not among the sources.
    [jobStore.store(job)], line 421: [AbstractJobStore], their interface,
    declares no method [store] ([update] is the one that persists) and the
    specification calls [store] non-existent, so the attribute lookup on the
    store fails. *)
Definition store (job : Job) : M unit := raise (AttributeError "store").

(** Lines 230-239 on the stack read from its top; [jobs[0]] of an empty
    group raises.  Line 234 hands [jobs[0]], a whole entry, to [exists];
    [ex] is what [exists] answers for it. *)
Fixpoint popFinished (ex : Successor → bool) (groups : list (list Successor))
  : exn + list (list Successor) :=
  match groups with
  | [] => inr []
  | top :: below =>
      match top with
      | [] => inl IndexError
      | first :: _ =>
          if ex first then inr groups
          else popFinished ex below
      end
  end.

Definition liftE {A} (r : exn + A) : M A := λ w, (w, r).

(** Lines 230-239. *)
Definition pruneSuccessors (job : Job) : M Job :=
  match command job with
  | None =>
      w <- get ;;
      st <- liftE (popFinished (entryExists w) (rev (stack job))) ;;
      ret (set_stack (rev st) job)
  | Some _ => ret job
  end.

(** How an iteration of the chain loop ends after the command has run. *)
Inductive Verdict :=
  | Break
  | Chain (s : Successor).

(** Lines 293-321.  [over] is the value of
    [time.time() - startTime > float(config.attrib["job_time"])].  The
    argument of [logger.info] at line 307 reads the name [tasks], which
    nothing binds, so line 308 is not reached. *)
Definition chainCheck (over : bool) (job : Job) : exn + Verdict :=
  if over then inr Break
  else if (length (stack job) =? 0)%nat then inr Break
  else match last (stack job) with
       | None => inl IndexError
       | Some jobs =>
           if (2 <=? length jobs)%nat then inl (NameError "tasks")
           else match jobs with
                | [] => inl IndexError
                | s :: _ =>
                    if (sMemory s >? memory job)%Z then inr Break
                    else if (sCpu s >? cpu job)%Z then inr Break
                    else match sPredecessorID s with
                         | Some _ => inr Break
                         | None => inr (Chain s)
                         end
                end
       end.

(** The two attributes that lines 340-341 read from the successor,
    [predeccesors] and [predeccesorNumber]: what the class [Job] answers
    for them, [None] when it has no attribute of that name. *)
Record JobClass := mkJobClass {
  attr_predeccesors : Job → option (list string);
  attr_predeccesorNumber : Job → option nat;
}.

(** Modelled from the spec: the class [Job] is not among the sources; the
    data model and [jobStoreTest.py] name the two fields
    [predecessorsFinished] and [predecessorNumber], and no other. *)
Definition specJobClass : JobClass :=
  mkJobClass (λ _, None) (λ _, None).

Section Worker.
Variable cls : JobClass.
(** [loadTarget(job.command, jobStore)._execute(job=job, ...)]: the
    payload, which may change the job object and the store and returns
    its messages. *)
Variable execute : Job → M (Job * list string).
(** The outcome of the test of line 293 in the iteration of that index. *)
Variable timeExceeded : nat → bool.
(** [config.attrib.has_key("stats")] *)
Variable statsEnabled : bool.

(** Lines 333-352. *)
Definition chainInto (job : Job) (s : Successor) : M Job :=
  let job := set_stack (removelast (stack job)) job in
  successorJob <- load (sJobStoreID s) ;;
  assert (memory successorJob =? sMemory s)%Z ;;;
  assert (cpu successorJob =? sCpu s)%Z ;;;
  match attr_predeccesors cls successorJob with
  | None => raise (AttributeError "predeccesors")
  | Some p => assert (bool_decide (p = []))
  end ;;;
  match attr_predeccesorNumber cls successorJob with
  | None => raise (AttributeError "predeccesorNumber")
  | Some n => assert (n =? 1)%nat
  end ;;;
  let job := set_command (command successorJob) job in
  let job := set_stack (stack job ++ stack successorJob) job in
  assert (memory successorJob <=? memory job)%Z ;;;
  assert (cpu successorJob <=? cpu job)%Z ;;;
  modify (set_handleJobsToDelete (Some [jobStoreID successorJob])) ;;;
  update job ;;;
  delete_ (jobStoreID successorJob) ;;;
  ret job.

(** Lines 264-275: [system(command)] at line 274 reads the name
    [command], which nothing binds. *)
Definition runCommand (job : Job) (c : string) : M (Job * list string) :=
  if bool_decide (substring 0 11 c = "scriptTree ")
  then execute job
  else raise (NameError "command").

(** Line 312, [jobStoreID, memory, cpu, predecessorID = jobs[0]], binds
    anew the local [jobStoreID] of [main], which line 122 bound to the ID of
    the worker's own job.  [reboundID over job localID] is the value of that
    local after lines 293-312, from its value [localID] before them: the
    lines reach the assignment when the time is not exceeded and the top
    group has one entry. *)
Definition reboundID (over : bool) (job : Job) (localID : string) : string :=
  if over then localID
  else match last (stack job) with
       | Some [s] => sJobStoreID s
       | _ => localID
       end.

(** Lines 259-354; [None] when the fuel runs out.  [messages] is unbound
    until a command has run.  The loop is the inside of a [try]: an
    exception ends it and is handed on as a value, and with either ending
    goes the value of the local [jobStoreID], which the handler reads. *)
Fixpoint chainLoop (fuel iter : nat) (localID : string) (job : Job)
    (messages : option (list string))
  : M (string * (exn + option (Job * option (list string)))) :=
  match fuel with
  | O => ret (localID, inr None)
  | S fuel' =>
      match command job with
      | Some c =>
          r <- attempt (runCommand job c) ;;
          match r with
          | inl e => ret (localID, inl e)
          | inr r =>
              let localID := reboundID (timeExceeded iter) r.1 localID in
              match chainCheck (timeExceeded iter) r.1 with
              | inl e => ret (localID, inl e)
              | inr Break => ret (localID, inr (Some (r.1, Some r.2)))
              | inr (Chain s) =>
                  job' <- attempt (chainInto r.1 s) ;;
                  match job' with
                  | inl e => ret (localID, inl e)
                  | inr job' => chainLoop fuel' (S iter) localID job' (Some r.2)
                  end
              end
          end
      | None =>
          a <- attempt (assert (length (stack job) =? 0)%nat) ;;
          match a with
          | inl e => ret (localID, inl e)
          | inr _ => ret (localID, inr (Some (job, messages)))
          end
      end
  end.

Definition readMessages (messages : option (list string)) : M (list string) :=
  match messages with
  | Some m => ret m
  | None => raise (NameError "messages")
  end.

(** Lines 360-374. *)
Definition finishStats (messages : option (list string)) : M unit :=
  m <- readMessages messages ;;
  if statsEnabled then modify (emit (EvStats m))
  else if (0 <? length m)%nat then modify (emit (EvStats m))
  else ret tt.

(** Lines 223-376, the body of [try], for the job [id]: how it ends (the
    exception, or the job it worked on, or [None] when the fuel of the chain
    loop runs out) and the value of the local [jobStoreID] at that point. *)
Definition tryBlock (fuel : nat) (id : string)
  : M (string * (exn + option Job)) :=
  r <- attempt (job <- load id ;;
                job <- pruneSuccessors job ;;
                clearLogFile job) ;;
  match r with
  | inl e => ret (id, inl e)
  | inr job =>
      r <- chainLoop fuel 0 id job None ;;
      match r with
      | (localID, inl e) => ret (localID, inl e)
      | (localID, inr None) => ret (localID, inr None)
      | (localID, inr (Some (job, messages))) =>
          s <- attempt (finishStats messages) ;;
          match s with
          | inl e => ret (localID, inl e)
          | inr _ => ret (localID, inr (Some job))
          end
      end
  end.

(** The same body as a program that raises its exception. *)
Definition tryBody (fuel : nat) (id : string) : M (option Job) :=
  r <- tryBlock fuel id ;; liftE r.2.

(** Lines 381-386, the handler: [jobStore.load(jobStoreID)] reads the local
    [jobStoreID] as the body of [try] left it. *)
Definition onFailure (localID : string) : M Job :=
  job <- load localID ;;
  ret (setupJobAfterFailure job).

(** Lines 417-429. *)
Definition finish (job : Job) (workerFailed : bool) : M unit :=
  (if workerFailed then
     truncateFile 50000 ;;;
     job' <- setLogFile job ;;
     modify (set_workerLog None) ;;;
     store job'
   else ret tt) ;;;
  if negb workerFailed && bool_decide (command job = None)
     && (length (stack job) =? 0)%nat
  then delete_ (jobStoreID job)
  else ret tt.

(** [main] from line 207 on, for the job [id]; [None] when the fuel of the
    chain loop runs out. *)
Definition main (fuel : nat) (id : string) : M (option unit) :=
  r <- tryBlock fuel id ;;
  match r with
  | (localID, inl _) =>
      job <- onFailure localID ;;
      finish job true ;;; ret (Some tt)
  | (_, inr None) => ret None
  | (_, inr (Some job)) => finish job false ;;; ret (Some tt)
  end.
End Worker.

(** The exit status of the worker process: an exception that leaves [main]
    ends the interpreter with status 1. *)
Definition exitCode {A} (r : exn + A) : Z :=
  match r with
  | inr _ => 0
  | inl _ => 1
  end.

(** ** [worker.py]: arguments, environment and the command of a target *)

(** [str.split(sep)] for a separator of one character: the segments between
    the separators, empty ones kept; the empty string gives one empty
    segment. *)
Fixpoint splitOn (sep : ascii) (s : string) : list string :=
  match s with
  | EmptyString => [EmptyString]
  | String c s' =>
      if bool_decide (c = sep) then EmptyString :: splitOn sep s'
      else match splitOn sep s' with
           | seg :: segs => String c seg :: segs
           | [] => [String c EmptyString]
           end
  end.

(** [c in s] for a character [c]. *)
Fixpoint occurs (c : ascii) (s : string) : bool :=
  match s with
  | EmptyString => false
  | String d s' => bool_decide (d = c) || occurs c s'
  end.

(** [sep.join(l)] *)
Fixpoint join (sep : string) (l : list string) : string :=
  match l with
  | [] => EmptyString
  | [x] => x
  | x :: l' => x +:+ sep +:+ join sep l'
  end.

(** The characters at which [str.split()] cuts: space, tab, newline,
    vertical tab, form feed, carriage return. *)
Definition isSpace (c : ascii) : bool :=
  let n := nat_of_ascii c in
  (n =? 32)%nat || ((9 <=? n)%nat && (n <=? 13)%nat).

(** [str.split()]: the words between runs of whitespace, none of them
    empty.  [cur] is the word being read, if any. *)
Fixpoint splitWords (cur : option string) (s : string) : list string :=
  match s with
  | EmptyString => match cur with Some t => [t] | None => [] end
  | String c s' =>
      if isSpace c then
        match cur with
        | Some t => t :: splitWords None s'
        | None => splitWords None s'
        end
      else splitWords (Some (default EmptyString cur +:+ String c EmptyString)) s'
  end.

Definition split (s : string) : list string := splitWords None s.

(** Errors of the pure helpers below. *)
Inductive ArgError :=
  | ArgIndexError
  | ArgValueError.

(** [list.remove(x)]: the list without its first item equal to [x]; none
    such is a [ValueError]. *)
Fixpoint list_remove (x : string) (l : list string) : option (list string) :=
  match l with
  | [] => None
  | y :: l' =>
      if bool_decide (y = x) then Some l'
      else (λ r, y :: r) <$> list_remove x l'
  end.

(** Lines 105-106 and 121-122 of [main]:
    [sys.path.append(sys.argv[1]); sys.argv.remove(sys.argv[1]);
     jobStoreString = sys.argv[1]; jobStoreID = sys.argv[2]].
    The result is the new [sys.path], [jobStoreString] and [jobStoreID]. *)
Definition readArguments (sys_path argv : list string)
  : ArgError + (list string * string * string) :=
  match argv !! 1%nat with
  | None => inl ArgIndexError
  | Some dir =>
      match list_remove dir argv with
      | None => inl ArgValueError
      | Some argv' =>
          match argv' !! 1%nat, argv' !! 2%nat with
          | Some jobStoreString, Some jobStoreID =>
              inr (sys_path ++ [dir], jobStoreString, jobStoreID)
          | _, _ => inl ArgIndexError
          end
      end
  end.

(** Line 139, the names that are not taken from the pickled environment. *)
Definition keptNames : list string := ["TMPDIR"; "TMP"; "HOSTNAME"; "HOSTTYPE"].

(** Lines 138-140: [os.environ] after the loop over the pickled dictionary
    [environment]. *)
Definition loadEnvironment (environment os_environ : gmap string string)
  : gmap string string :=
  foldl (λ env iv, if bool_decide (iv.1 ∈ keptNames) then env
                   else <[iv.1 := iv.2]> env)
        os_environ (map_to_list environment).

(** Lines 142-145: [sys.path] after the entries of [PYTHONPATH]. *)
Definition extendPath (environment : gmap string string) (sys_path : list string)
  : list string :=
  match environment !! "PYTHONPATH" with
  | Some p =>
      foldl (λ path e, if bool_decide (e ≠ EmptyString) then path ++ [e] else path)
            sys_path (splitOn ":"%char p)
  | None => sys_path
  end.

(** Lines 76-78: [l = targetClassName.split(".")], the module name
    [".".join(l[:-1])] and the class name [l[-1]]. *)
Definition splitClassName (targetClassName : string) : string * string :=
  let l := splitOn "."%char targetClassName in
  (join "." (removelast l), List.last l EmptyString).

Section LoadTarget.
Context {Target : Type}.
(** [importlib.import_module(moduleName)] for a module name that is not
    empty, followed by [targetModule.__dict__[targetClassName]] (lines
    79-81), under the given [sys.path]: the exception raised, if any.  What
    they find is a matter of the modules installed. *)
Variable importClass : list string → string → string → option exn.
(** [loadPickleFile] (lines 86-90): [jobStore.readFileStream] and
    [cPickle.load], which give the target or raise. *)
Variable loadPickleFile : string → exn + Target.

(** Lines 75-81, the loop on the class tokens: the first exception, if
    any.  [importlib.import_module] raises [ValueError] for the empty
    name. *)
Fixpoint importClasses (sys_path : list string) (tokens : list string)
  : option exn :=
  match tokens with
  | [] => None
  | targetClassName :: rest =>
      let moduleName := (splitClassName targetClassName).1 in
      let className := (splitClassName targetClassName).2 in
      if bool_decide (moduleName = "")
      then Some (ValueError "Empty module name")
      else match importClass sys_path moduleName className with
           | Some e => Some e
           | None => importClasses sys_path rest
           end
  end.

(** [loadTarget] (lines 54-84): [sys.path] as the call leaves it, and the
    target or the exception raised. *)
Definition loadTarget (command : string) (sys_path : list string)
  : list string * (exn + Target) :=
  let commandTokens := split command in
  match commandTokens !! 0%nat with
  | None => (sys_path, inl IndexError)
  | Some marker =>
      if bool_decide (marker = "scriptTree") then
        match commandTokens !! 2%nat with
        | None => (sys_path, inl IndexError)
        | Some moduleDirPath =>
            let sys_path' :=
              if bool_decide (moduleDirPath ∈ sys_path) then sys_path
              else sys_path ++ [moduleDirPath] in
            match importClasses sys_path' (drop 3 commandTokens) with
            | Some e => (sys_path', inl e)
            | None =>
                match commandTokens !! 1%nat with
                | None => (sys_path', inl IndexError)
                | Some pickleFile => (sys_path', loadPickleFile pickleFile)
                end
            end
        end
      else (sys_path, inl AssertionError)
  end.
End LoadTarget.


(** What a sweep leaves alone in the world, and what it can only shrink or
    extend. *)
Definition sweepFrame (w w' : World) : Prop :=
  sharedFiles w' = sharedFiles w ∧ workerLog w' = workerLog w
  ∧ handleJobsToDelete w' = handleJobsToDelete w
  ∧ nextFileID w' = nextFileID w ∧ rootCreated w' = rootCreated w
  ∧ dom (jobFiles w') ⊆ dom (jobFiles w)
  ∧ trace w `prefix_of` trace w'.

(** The fields of a record that the sweep has no statement for. *)
Definition coreOf (job : Job)
  : string * option string * Z * Z * string * nat * list string * Z :=
  (jobStoreID job, command job, memory job, cpu job, updateID job,
   predecessorNumber job, predecessorsFinished job, remainingRetryCount job).

(** Records in [v] come from [v0] with the same core fields, and with
    their [jobsToDelete] as it was or empty. *)
Definition fromStore (v0 v : World) : Prop :=
  ∀ id j', jobRecords v !! id = Some j' →
           ∃ j, jobRecords v0 !! id = Some j ∧ coreOf j' = coreOf j
                ∧ (jobsToDelete j' = [] ∨ jobsToDelete j' = jobsToDelete j).

(** The first successor of the group is not in the store. *)
Definition firstGone (ex : string → bool) (g : list Successor) : Prop :=
  ∃ first rest, g = first :: rest ∧ ex (sJobStoreID first) = false.

(** ** Stores in which every record is filed under its own [jobStoreID],
    as [update] files it. *)
Definition storeKeyed (w : World) : Prop :=
  ∀ id job, jobRecords w !! id = Some job → jobStoreID job = id.

(** A record on which the third loop of the sweep has nothing to do. *)
Definition Settled (job : Job) : Prop :=
  jobsToDelete job = [] ∧ logJobStoreFileID job = None.

#[global] Instance Event_eq_dec : EqDecision Event.
Proof. solve_decision. Defined.

#[global] Instance Successor_eq_dec : EqDecision Successor.
Proof. solve_decision. Defined.

(** The store calls made between two worlds of one run. *)
Definition callsSince (w w' : World) : list Event :=
  drop (length (trace w)) (trace w').

Definition updatesOf (id : string) (calls : list Event) : nat :=
  length (List.filter (λ e, bool_decide (e = EvUpdate id)) calls).

Definition deletesIn (calls : list Event) : nat :=
  length (List.filter (λ e, match e with EvDelete _ => true | _ => false end) calls).

#[global] Instance storeKeyed_dec w : Decision (storeKeyed w).
Proof.
  change (Decision (map_Forall (λ id job, jobStoreID job = id) (jobRecords w))).
  apply _.
Defined.

(** * Scenarios *)

Definition emptyWorld : World :=
  mkWorld ∅ ∅ ∅ false 0%N None (Some []) [].

Definition successorOf (id : string) : Successor := mkSuccessor id 1 1 None.

(** A store after a crash: the parent [P] announced the update ID [u1] and
    its child [K] was created under it, but never linked; the root [R] has
    a top group of three successors of which only [B] is left. *)
Definition jobR : Job :=
  mkJob "R" None 1 1 "r" [[successorOf "A"; successorOf "B"; successorOf "C"]]
        0 [] [] None 1.
Definition jobB : Job := mkJob "B" (Some "scriptTree f d m.C") 1 1 "b" [] 1 [] [] None 1.
Definition jobP : Job := mkJob "P" (Some "scriptTree f d m.C") 1 1 "p" [] 1 [] ["u1"] None 1.
Definition jobK : Job := mkJob "K" (Some "scriptTree f d m.C") 1 1 "u1" [] 1 [] [] None 1.

Definition crashedWorld : World :=
  mkWorld (list_to_map [("R", jobR); ("B", jobB); ("P", jobP); ("K", jobK)])
          ∅ ∅ true 0%N None (Some []) [].

(** The crashed store with one more record, [L], which names a log file
    that is not in the store. *)
Definition jobL : Job := mkJob "L" None 1 1 "l" [] 0 [] [] (Some 7%N) 1.

Definition danglingWorld : World :=
  mkWorld (list_to_map [("R", jobR); ("B", jobB); ("P", jobP); ("K", jobK);
                        ("L", jobL)])
          ∅ ∅ true 0%N None (Some []) [].

(** A job that still has its command, on a stack whose only group names a
    successor that is gone. *)
Definition jobWithCommand : Job :=
  mkJob "J" (Some "scriptTree f d m.C") 1 1 "j" [[successorOf "gone"]] 0 [] [] None 1.
Definition shellJob : Job :=
  mkJob "J" None 1 1 "j" [[successorOf "gone"]] 0 [] [] None 1.

Definition staleWorld : World :=
  mkWorld (list_to_map [("J", jobWithCommand)]) ∅ ∅ true 0%N None (Some []) [].

(** The chain [J1 → J2 → J3]: singleton groups, equal resources,
    [predecessorNumber = 1]. *)
Definition jobJ1 : Job :=
  mkJob "J1" (Some "scriptTree f1 d m.C") 2 2 "j1" [[mkSuccessor "J2" 2 2 None]]
        0 [] [] None 3.
Definition jobJ2 : Job :=
  mkJob "J2" (Some "scriptTree f2 d m.C") 2 2 "j2" [[mkSuccessor "J3" 2 2 None]]
        1 [] [] None 3.
Definition jobJ3 : Job :=
  mkJob "J3" (Some "scriptTree f3 d m.C") 2 2 "j3" [] 1 [] [] None 3.

Definition chainWorld : World :=
  mkWorld (list_to_map [("J1", jobJ1); ("J2", jobJ2); ("J3", jobJ3)])
          ∅ ∅ true 0%N None (Some [x41; x42]%byte) [].

(** A job whose next group is a fan-out of two. *)
Definition jobFan : Job :=
  mkJob "F" (Some "scriptTree f d m.C") 2 2 "f"
        [[mkSuccessor "X" 1 1 None; mkSuccessor "Y" 1 1 None]] 0 [] [] None 3.

(** A payload that succeeds without messages and leaves the job a shell,
    and one that raises. *)
Definition quietPayload (job : Job) : M (Job * list string) :=
  ret (set_command None job, []).
Definition failingPayload (job : Job) : M (Job * list string) :=
  raise (PayloadError "boom").

(** The reading of lines 340-341 under which the two names are the data
    model's [predecessorsFinished] and [predecessorNumber]. *)
Definition aliasJobClass : JobClass :=
  mkJobClass (λ job, Some (predecessorsFinished job))
             (λ job, Some (predecessorNumber job)).

Definition neverOver (iteration : nat) : bool := false.

(** A name that ends in a newline. *)
Definition nameWithNewline : string :=
  String.append "config.xml" (String newline EmptyString).

(** * Properties *)

(** ** Stepping the monad *)

Lemma bind_run {A B} (m : M A) (k : A → M B) w :
  bind m k w = match m w with
               | (w', inr a) => k a w'
               | (w', inl e) => (w', inl e)
               end.
Proof. reflexivity. Qed.

Lemma attempt_run {A} (m : M A) w :
  attempt m w = ((m w).1, inr (m w).2).
Proof. unfold attempt, try_except, bind, ret. by destruct (m w) as [w' [e | a]]. Qed.

Lemma attempt_bind {A B} (m : M A) (k : exn + A → M B) w :
  (r <- attempt m ;; k r) w = k (m w).2 (m w).1.
Proof. by rewrite bind_run, attempt_run. Qed.

Lemma bind_returns {A B} (m : M A) (k : A → M B) w w' a :
  m w = (w', inr a) → bind m k w = k a w'.
Proof. intros H. unfold bind. by rewrite H. Qed.

Lemma bind_raises {A B} (m : M A) (k : A → M B) w w' e :
  m w = (w', inl e) → bind m k w = (w', inl e).
Proof. intros H. unfold bind. by rewrite H. Qed.

(** ** The collated set *)

Lemma collate_inner (acc : gset string) (l : list string) u :
  u ∈ foldl (λ acc u, acc ∪ {[u]}) acc l ↔ u ∈ acc ∨ u ∈ l.
Proof.
  revert acc. induction l as [|x l IH]; intros acc; simpl.
  - set_solver.
  - rewrite IH. set_solver.
Qed.

Lemma collate_outer (acc : gset string) (js : list Job) u :
  u ∈ foldl (λ acc job, foldl (λ acc u, acc ∪ {[u]}) acc (jobsToDelete job)) acc js
  ↔ u ∈ acc ∨ ∃ job, job ∈ js ∧ u ∈ jobsToDelete job.
Proof.
  revert acc. induction js as [|j js IH]; intros acc; simpl.
  - split; [auto | intros [H | (job & H & _)]; [done | by apply elem_of_nil in H]].
  - rewrite IH, collate_inner. split.
    + intros [[H | H] | (job & Hin & Hu)]; [by left | right | right].
      * exists j. split; [left | done].
      * exists job. split; [by right | done].
    + intros [H | (job & Hin & Hu)]; [by left; left |].
      apply elem_of_cons in Hin as [-> | Hin]; [by left; right |].
      right. by exists job.
Qed.

Lemma elem_of_collate (js : list Job) u :
  u ∈ collate js ↔ ∃ job, job ∈ js ∧ u ∈ jobsToDelete job.
Proof.
  unfold collate. rewrite collate_outer. split; [|by right].
  intros [H | H]; [set_solver | done].
Qed.

Lemma elem_of_jobsOf w job :
  job ∈ jobsOf w ↔ ∃ id, jobRecords w !! id = Some job.
Proof.
  unfold jobsOf. rewrite list_elem_of_fmap. split.
  - intros ([id j] & -> & H). exists id. by apply elem_of_map_to_list in H.
  - intros [id H]. exists (id, job). split; [done |]. by apply elem_of_map_to_list.
Qed.

(** ** The deletion loop *)

Lemma deleteBody_run U job w :
  deleteBody U job w =
  if bool_decide (updateID job ∈ U)
  then (emit (EvDelete (jobStoreID job))
          (set_jobFiles (filter (λ kv, kv.2.1 ≠ jobStoreID job) (jobFiles w))
             (set_jobRecords (delete (jobStoreID job) (jobRecords w)) w)), inr tt)
  else (w, inr tt).
Proof. unfold deleteBody. by case_bool_decide. Qed.

Lemma deleteLoop_spec (U : gset string) (js : list Job) (w : World) :
  (forEach js (deleteBody U) w).2 = inr tt ∧
  (∀ id, Exists (λ job, jobStoreID job = id ∧ updateID job ∈ U) js →
         jobRecords (forEach js (deleteBody U) w).1 !! id = None) ∧
  (∀ id, ¬ Exists (λ job, jobStoreID job = id ∧ updateID job ∈ U) js →
         jobRecords (forEach js (deleteBody U) w).1 !! id = jobRecords w !! id).
Proof.
  revert w. induction js as [|j js IH]; intros w; simpl.
  - split; [done |]. split; [|done].
    intros id H. by apply Exists_nil in H.
  - rewrite bind_run, deleteBody_run.
    case_bool_decide as Hj.
    + set (w1 := emit _ _).
      destruct (IH w1) as (Hr & Hdel & Hkeep).
      split; [done |]. split.
      * intros id Hex.
        destruct (decide (Exists (λ job, jobStoreID job = id ∧ updateID job ∈ U) js))
          as [Hex' | Hnex]; [by apply Hdel |].
        rewrite Hkeep by done.
        apply Exists_cons in Hex as [[<- _] | Hex]; [|done].
        unfold w1. simpl. apply lookup_delete_eq.
      * intros id Hnex. rewrite Hkeep.
        -- unfold w1. simpl. apply lookup_delete_ne. intros <-.
           apply Hnex. by apply Exists_cons_hd.
        -- intros Hex. apply Hnex. by apply Exists_cons_tl.
    + destruct (IH w) as (Hr & Hdel & Hkeep).
      split; [done |]. split.
      * intros id Hex. apply Hdel.
        apply Exists_cons in Hex as [[_ HU] | Hex]; done.
      * intros id Hnex. apply Hkeep.
        intros Hex. apply Hnex. by apply Exists_cons_tl.
Qed.

Lemma deletePhase_spec (U : gset string) (w : World) :
  storeKeyed w →
  (deletePhase U w).2 = inr tt ∧
  (∀ id job, jobRecords w !! id = Some job → updateID job ∈ U →
     jobRecords (deletePhase U w).1 !! id = None) ∧
  (∀ id job, jobRecords w !! id = Some job → updateID job ∉ U →
     jobRecords (deletePhase U w).1 !! id = Some job) ∧
  (∀ id, jobRecords w !! id = None →
     jobRecords (deletePhase U w).1 !! id = None).
Proof.
  intros Hk. unfold deletePhase.
  destruct (0 <? size U)%nat eqn:Hsz.
  - change (bind jobs _ w) with (forEach (jobsOf w) (deleteBody U) w).
    destruct (deleteLoop_spec U (jobsOf w) w) as (Hr & Hdel & Hkeep).
    split; [done |]. repeat split.
    + intros id job Hid HU. apply Hdel, Exists_exists.
      exists job. split; [|by split; [apply Hk |]].
      apply elem_of_jobsOf. by exists id.
    + intros id job Hid HU. rewrite Hkeep; [done |].
      intros (job' & Hin & Hid' & HU')%Exists_exists.
      apply elem_of_jobsOf in Hin as [id' Hin].
      assert (id' = id) as -> by (by rewrite <- (Hk _ _ Hin)).
      congruence.
    + intros id Hid. rewrite Hkeep; [done |].
      intros (job' & Hin & Hid' & HU')%Exists_exists.
      apply elem_of_jobsOf in Hin as [id' Hin].
      assert (id' = id) as -> by (by rewrite <- (Hk _ _ Hin)).
      congruence.
  - apply Nat.ltb_ge in Hsz.
    assert (U = ∅) as ->.
    { apply leibniz_equiv, size_empty_inv. lia. }
    simpl. repeat split; done.
Qed.

(** C3.  On a started store the sweep collates the [jobsToDelete] of all
    persisted records, and its deletion loop then removes exactly the
    records whose [updateID] is in the collated set: such a record is gone
    when the third loop starts, every other record is still there
    unchanged, and no record appears. *)
Theorem clean_deletes_collated (w : World) :
  rootCreated w = true →
  storeKeyed w →
  let U := collate (jobsOf w) in
  let w1 := (deletePhase U w).1 in
  (∀ u, u ∈ U ↔ ∃ job, job ∈ jobsOf w ∧ u ∈ jobsToDelete job) ∧
  _clean w = cleanPhase w1 ∧
  (∀ id job, jobRecords w !! id = Some job → updateID job ∈ U →
     jobRecords w1 !! id = None) ∧
  (∀ id job, jobRecords w !! id = Some job → updateID job ∉ U →
     jobRecords w1 !! id = Some job) ∧
  (∀ id, jobRecords w !! id = None → jobRecords w1 !! id = None).
Proof.
  intros Hs Hk U w1.
  destruct (deletePhase_spec U w Hk) as (Hr & Hdel & Hkeep & Hnew).
  split; [apply elem_of_collate |].
  split; [|done].
  unfold _clean, started. rewrite bind_run, Hs.
  rewrite bind_run. simpl. fold U.
  rewrite bind_run. destruct (deletePhase U w) as [w' r] eqn:E.
  simpl in Hr. by subst r.
Qed.

Lemma clean_deletes_collated_witness :
  (∀ u, u ∈ collate (jobsOf crashedWorld) ↔
        ∃ job, job ∈ jobsOf crashedWorld ∧ u ∈ jobsToDelete job) ∧
  _clean crashedWorld
  = cleanPhase (deletePhase (collate (jobsOf crashedWorld)) crashedWorld).1 ∧
  (∀ id job, jobRecords crashedWorld !! id = Some job →
     updateID job ∈ collate (jobsOf crashedWorld) →
     jobRecords (deletePhase (collate (jobsOf crashedWorld)) crashedWorld).1 !! id = None) ∧
  (∀ id job, jobRecords crashedWorld !! id = Some job →
     updateID job ∉ collate (jobsOf crashedWorld) →
     jobRecords (deletePhase (collate (jobsOf crashedWorld)) crashedWorld).1 !! id
     = Some job) ∧
  (∀ id, jobRecords crashedWorld !! id = None →
     jobRecords (deletePhase (collate (jobsOf crashedWorld)) crashedWorld).1 !! id = None).
Proof.
  apply (clean_deletes_collated crashedWorld).
  - reflexivity.
  - apply (bool_decide_unpack _). vm_compute. reflexivity.
Defined.

(** ** The stack loop of the sweep *)


Local Arguments cleanStack : simpl never.

(** No entry of a group is a key of the store. *)
Lemma filter_entryExists w (g : list Successor) :
  List.filter (entryExists w) g = [].
Proof. by induction g. Qed.

Lemma cleanStack_entryExists w st :
  cleanStack (entryExists w) st = ([], false).
Proof.
  unfold cleanStack. induction (rev st) as [|top below IH]; [done |].
  cbn [pruneTop]. rewrite filter_entryExists. exact IH.
Qed.

Lemma cleanJob_run job w :
  cleanJob job w =
  let r1 := if negb (length (jobsToDelete job) =? 0)%nat
            then (set_jobsToDelete [] job, true) else (job, false) in
  let job2 := set_stack [] r1.1 in
  match logJobStoreFileID job2 with
  | Some f =>
      match jobFiles w !! f with
      | Some _ =>
          update (set_logJobStoreFileID None job2)
            (emit (EvDeleteFile f) (set_jobFiles (delete f (jobFiles w)) w))
      | None => (w, inl (NoSuchFileException f))
      end
  | None => if r1.2 then update job2 w else (w, inr tt)
  end.
Proof.
  unfold cleanJob. rewrite bind_run. cbn [get]. cbv zeta.
  rewrite cleanStack_entryExists. cbn [fst snd].
  destruct (negb _); cbn [fst snd set_stack logJobStoreFileID set_jobsToDelete].
  - destruct (logJobStoreFileID job) as [f|] eqn:Hf.
    + unfold clearLogFile. simpl. rewrite Hf.
      rewrite !bind_run. unfold deleteFile.
      by destruct (jobFiles w !! f).
    + by rewrite bind_run.
  - destruct (logJobStoreFileID job) as [f|] eqn:Hf.
    + unfold clearLogFile. simpl. rewrite Hf.
      rewrite !bind_run. unfold deleteFile.
      by destruct (jobFiles w !! f).
    + by rewrite bind_run.
Qed.

(** ** Records on which the third loop has nothing to do *)

Lemma cleanJob_settled job w :
  Settled job → cleanJob job w = (w, inr tt).
Proof.
  intros (H1 & H2). rewrite cleanJob_run. cbv zeta.
  rewrite H1. cbn [length Nat.eqb negb fst snd set_stack logJobStoreFileID].
  by rewrite H2.
Qed.

Lemma cleanLoop_settled (js : list Job) w :
  (∀ job, job ∈ js → Settled job) →
  forEach js cleanJob w = (w, inr tt).
Proof.
  induction js as [|j js IH]; intros H; [done |]. simpl.
  rewrite (bind_returns _ _ w w tt).
  - apply IH. intros job Hin. apply H. by right.
  - apply cleanJob_settled, H. left.
Qed.

Lemma collate_settled (js : list Job) :
  (∀ job, job ∈ js → jobsToDelete job = []) → collate js = ∅.
Proof.
  intros H. apply leibniz_equiv. apply elem_of_equiv_empty. intros u Hu.
  apply elem_of_collate in Hu as (job & Hin & Hu).
  rewrite (H job Hin) in Hu. by apply elem_of_nil in Hu.
Qed.

(** One turn of the third loop that returns leaves the record settled. *)
Lemma cleanJob_step job v v1 :
  jobRecords v !! jobStoreID job = Some job →
  cleanJob job v = (v1, inr tt) →
  ∃ job', jobRecords v1 = <[jobStoreID job := job']> (jobRecords v)
          ∧ Settled job' ∧ jobStoreID job' = jobStoreID job.
Proof.
  intros Hin. rewrite cleanJob_run. cbv zeta.
  destruct (length (jobsToDelete job) =? 0)%nat eqn:Hl;
    cbn [negb fst snd set_stack set_jobsToDelete logJobStoreFileID stack].
  - apply Nat.eqb_eq, nil_length_inv in Hl.
    destruct (logJobStoreFileID job) as [f|] eqn:Hf.
    + destruct (jobFiles v !! f); [|done]. intros [= <-].
      eexists. split; [reflexivity |]. by repeat split.
    + intros [= <-]. exists job. split; [by rewrite insert_id |].
      by repeat split.
  - destruct (logJobStoreFileID job) as [f|] eqn:Hf.
    + destruct (jobFiles v !! f); [|done]. intros [= <-].
      eexists. split; [reflexivity |]. by repeat split.
    + intros [= <-]. eexists. split; [reflexivity |]. by repeat split.
Qed.


Lemma cleanLoop_spec (js : list Job) (v v' : World) :
  NoDup (jobStoreID <$> js) →
  (∀ job, job ∈ js → jobRecords v !! jobStoreID job = Some job) →
  forEach js cleanJob v = (v', inr tt) →
  dom (jobRecords v') = dom (jobRecords v) ∧
  (∀ job, job ∈ js →
     ∃ job', jobRecords v' !! jobStoreID job = Some job' ∧ Settled job') ∧
  (∀ id, id ∉ jobStoreID <$> js → jobRecords v' !! id = jobRecords v !! id).
Proof.
  revert v. induction js as [|j js IH]; intros v Hnd Hin; simpl.
  - intros [= <-]. split; [done |]. split; [|done].
    intros job H. by apply elem_of_nil in H.
  - rewrite bind_run.
    destruct (cleanJob j v) as [v1 [e | []]] eqn:Hj; [done |].
    intros Hrest.
    apply NoDup_cons in Hnd as [Hj_notin Hnd].
    destruct (cleanJob_step j v v1) as (j' & Hv1 & Hset & _); [apply Hin; left | done |].
    assert (dom (jobRecords v1) = dom (jobRecords v)) as Hdom.
    { rewrite Hv1, dom_insert_L.
      assert (jobStoreID j ∈ dom (jobRecords v))
        by (apply elem_of_dom; eexists; apply Hin; left).
      set_solver. }
    destruct (IH v1 Hnd) as (Hdom' & Hdone & Hother); [|done|].
    { intros job Hjob. rewrite Hv1, lookup_insert_ne; [apply Hin; by right |].
      intros Heq. apply Hj_notin. rewrite Heq.
      apply list_elem_of_fmap. by exists job. }
    split; [by rewrite Hdom' |]. split.
    + intros job [-> | Hjob]%elem_of_cons.
      * exists j'. split; [|done].
        rewrite Hother by done. by rewrite Hv1, lookup_insert_eq.
      * by apply Hdone.
    + intros id Hid. cbn [fmap list_fmap] in Hid.
      apply not_elem_of_cons in Hid as [Hne Hid].
      rewrite Hother by done. by rewrite Hv1, lookup_insert_ne.
Qed.

Lemma jobsOf_ids w :
  storeKeyed w → jobStoreID <$> jobsOf w = (map_to_list (jobRecords w)).*1.
Proof.
  intros Hk. unfold jobsOf. rewrite <- list_fmap_compose.
  apply list_fmap_ext. intros i [id job] Hi. simpl.
  apply Hk. apply elem_of_map_to_list, list_elem_of_lookup. by exists i.
Qed.

Lemma cleanPhase_settles w w' :
  storeKeyed w →
  cleanPhase w = (w', inr tt) →
  ∀ job, job ∈ jobsOf w' → Settled job.
Proof.
  intros Hk. unfold cleanPhase. rewrite bind_run.
  change (jobs w) with (w, inr (A:=exn) (jobsOf w)). intros Hrun.
  destruct (cleanLoop_spec (jobsOf w) w w') as (Hdom & Hdone & _); [| |done|].
  { rewrite jobsOf_ids by done. apply NoDup_fst_map_to_list. }
  { intros job (id & Hid)%elem_of_jobsOf. by rewrite (Hk _ _ Hid). }
  intros job (id & Hid)%elem_of_jobsOf.
  assert (is_Some (jobRecords w !! id)) as [j0 Hj0].
  { apply elem_of_dom. rewrite <- Hdom. apply elem_of_dom. by eexists. }
  destruct (Hdone j0) as (job' & Hl & Hs); [apply elem_of_jobsOf; by exists id |].
  rewrite (Hk _ _ Hj0), Hid in Hl. by injection Hl as <-.
Qed.

Lemma deletePhase_keyed U w :
  storeKeyed w → storeKeyed (deletePhase U w).1.
Proof.
  intros Hk. destruct (deletePhase_spec U w Hk) as (_ & Hdel & Hkeep & Hnew).
  intros id job Hid.
  destruct (jobRecords w !! id) as [j|] eqn:Hj.
  - destruct (decide (updateID j ∈ U)) as [HU | HU].
    + by rewrite (Hdel _ _ Hj HU) in Hid.
    + rewrite (Hkeep _ _ Hj HU) in Hid. injection Hid as <-. by apply Hk.
  - by rewrite (Hnew _ Hj) in Hid.
Qed.

(** ** The calls of the third loop *)








(** ** The worker's cleanup before the chain loop *)

Lemma set_stack_same job : set_stack (stack job) job = job.
Proof. by destruct job. Qed.

Lemma pruneSuccessors_shell job w :
  command job = None →
  pruneSuccessors job w =
  match popFinished (entryExists w) (rev (stack job)) with
  | inr st => (w, inr (set_stack (rev st) job))
  | inl e => (w, inl e)
  end.
Proof.
  intros Hc. unfold pruneSuccessors. rewrite Hc, bind_run. cbn [get].
  rewrite bind_run. unfold liftE. by destruct (popFinished _ _).
Qed.

(** C6 as stated fails, twice.  A job that still has its command keeps a
    top group whose only successor is gone: line 230 guards the loop.  And
    for a job without command the popping does not stop at a group whose
    first successor is in the store: line 234 hands [exists] the entry,
    which is no key of the store, and the group is popped. *)
Lemma prune_skipped_with_command :
  stack jobWithCommand = [[successorOf "gone"]] ∧
  existsIn staleWorld "gone" = false ∧
  pruneSuccessors jobWithCommand staleWorld = (staleWorld, inr jobWithCommand) ∧
  ¬ (∀ w job below first rest,
       stack job = below ++ [first :: rest] →
       existsIn w (sJobStoreID first) = false →
       pruneSuccessors job w = pruneSuccessors (set_stack below job) w) ∧
  existsIn staleWorld "J" = true ∧
  pruneSuccessors (set_stack [[successorOf "J"]] shellJob) staleWorld
  = (staleWorld, inr (set_stack [] shellJob)).
Proof.
  split; [done |]. split; [done |]. split; [done |]. split; [|done].
  intros H.
  specialize (H staleWorld jobWithCommand [] (successorOf "gone") [] eq_refl eq_refl).
  vm_compute in H. discriminate H.
Qed.

(** C6, amended.  In the cleanup before the chain loop, for a loaded job
    whose command is absent: a top group whose first successor is not in the
    store is popped whole and the loop goes on with the stack below, and an
    empty stack is left as it is.  A job whose command is present keeps its
    stack. *)
Theorem prune_shell_pops_finished (w : World) (job : Job)
    (below : list (list Successor)) (first : Successor) (rest : list Successor) :
  (command job = None →
   (stack job = [] → pruneSuccessors job w = (w, inr job)) ∧
   (stack job = below ++ [first :: rest] →
    existsIn w (sJobStoreID first) = false →
    pruneSuccessors job w = pruneSuccessors (set_stack below job) w)) ∧
  (command job ≠ None → pruneSuccessors job w = (w, inr job)).
Proof.
  split.
  - intros Hc. split.
    + intros Hs. rewrite pruneSuccessors_shell by done. rewrite Hs. simpl.
      by rewrite <- Hs, set_stack_same.
    + intros Hs _. rewrite !pruneSuccessors_shell by done.
      rewrite Hs, rev_unit. cbn [popFinished set_stack stack entryExists existsKey].
      by destruct (popFinished _ _).
  - intros Hc. unfold pruneSuccessors. by destruct (command job).
Qed.

Lemma prune_shell_pops_finished_witness :
  pruneSuccessors shellJob staleWorld
  = pruneSuccessors (set_stack [] shellJob) staleWorld ∧
  pruneSuccessors jobWithCommand staleWorld = (staleWorld, inr jobWithCommand).
Proof.
  split.
  - destruct (prune_shell_pops_finished staleWorld shellJob [] (successorOf "gone") [])
      as ((_ & H) & _); [reflexivity |].
    apply H; reflexivity.
  - destruct (prune_shell_pops_finished staleWorld jobWithCommand []
                (successorOf "gone") []) as (_ & H).
    apply H. discriminate.
Defined.

(** ** The chain loop *)

Lemma chainCheck_cases over job :
  chainCheck over job =
  if over then inr Break
  else match last (stack job) with
       | None => inr Break
       | Some [] => inl IndexError
       | Some [s] =>
           if (sMemory s >? memory job)%Z || (sCpu s >? cpu job)%Z
              || bool_decide (sPredecessorID s ≠ None)
           then inr Break else inr (Chain s)
       | Some (_ :: _ :: _) => inl (NameError "tasks")
       end.
Proof.
  unfold chainCheck. destruct over; [done |].
  destruct (stack job) as [|g st] eqn:Hs using rev_ind; [done |].
  rewrite length_app, last_snoc. cbn [length].
  replace (length st + 1 =? 0)%nat with false by (symmetry; apply Nat.eqb_neq; lia).
  destruct g as [|s [|s' g]]; [done | | done].
  cbn [length Nat.leb].
  destruct (sMemory s >? memory job)%Z; [done |].
  destruct (sCpu s >? cpu job)%Z; [done |].
  by destruct (sPredecessorID s).
Qed.

(** C2, the divergence.  When the time is not up and the top group holds
    two or more successors, the test of lines 305-308 does not reach its
    [break]: building the log message raises [NameError], so the iteration
    ends in the exception handler and not in a normal exit of the loop. *)
Theorem chainCheck_fanout_raises (job : Job) (g : list Successor) :
  last (stack job) = Some g →
  (2 ≤ length g)%nat →
  chainCheck false job = inl (NameError "tasks") ∧
  chainCheck false job ≠ inr Break.
Proof.
  intros Hl Hg. rewrite chainCheck_cases, Hl.
  destruct g as [|s [|s' g]]; simpl in Hg; [lia | lia | done].
Qed.

Lemma chainCheck_fanout_raises_witness :
  chainCheck false jobFan = inl (NameError "tasks") ∧
  chainCheck false jobFan ≠ inr Break.
Proof.
  apply (chainCheck_fanout_raises jobFan
           [mkSuccessor "X" 1 1 None; mkSuccessor "Y" 1 1 None]).
  - reflexivity.
  - simpl. lia.
Defined.

(** A chain step that returns has popped the top group, loaded the
    successor, transplanted its command and stack, and called [update] for
    the job and then [delete] for the successor; the successor's ID is on
    the store handle and the job's [jobsToDelete] is what it was. *)
Lemma chainInto_returns cls job s w w' job' :
  chainInto cls job s w = (w', inr job') →
  ∃ S, jobRecords w !! sJobStoreID s = Some S ∧
       job' = set_stack (removelast (stack job) ++ stack S)
                (set_command (command S) job) ∧
       jobsToDelete job' = jobsToDelete job ∧
       jobRecords w' = delete (jobStoreID S) (<[jobStoreID job := job']> (jobRecords w)) ∧
       handleJobsToDelete w' = Some [jobStoreID S] ∧
       callsSince w w' = [EvUpdate (jobStoreID job); EvDelete (jobStoreID S)].
Proof.
  unfold chainInto, bind, load, assert, raise, ret.
  destruct (jobRecords w !! sJobStoreID s) as [S|]; [|done].
  destruct (memory S =? sMemory s)%Z; [|done].
  destruct (cpu S =? sCpu s)%Z; [|done].
  destruct (attr_predeccesors cls S) as [p|]; [|done].
  destruct (bool_decide (p = [])); [|done].
  destruct (attr_predeccesorNumber cls S) as [n|]; [|done].
  destruct (n =? 1)%nat; [|done].
  cbn [memory cpu set_stack set_command].
  destruct (memory S <=? memory job)%Z; [|done].
  destruct (cpu S <=? cpu job)%Z; [|done].
  cbn. intros [= <- <-]. exists S. repeat split.
  unfold callsSince. cbn. by rewrite <- app_assoc, drop_app_length.
Qed.

(** With the job class of the data model no chain step returns, and the
    step that raises has made no call to the store. *)
Lemma chainInto_spec_raises job s w :
  ∃ e, chainInto specJobClass job s w = (w, inl e).
Proof.
  unfold chainInto, bind, load, assert, raise, ret.
  destruct (jobRecords w !! sJobStoreID s) as [S|]; [|by eexists].
  destruct (memory S =? sMemory s)%Z; [|by eexists].
  destruct (cpu S =? sCpu s)%Z; by eexists.
Qed.

(** C1, the divergence.  With the job class of the data model the chain
    step raises at line 340 before it transplants anything and makes no call
    to the store.  Under the reading in which lines 340-341 pass, the step
    calls [update] and then [delete], but line 350 has put the successor's
    ID on the store handle: the record that [update] persists has the
    [jobsToDelete] it had before. *)
Theorem chain_checkpoint_misses_job :
  chainInto specJobClass jobJ1 (mkSuccessor "J2" 2 2 None) chainWorld
  = (chainWorld, inl (AttributeError "predeccesors")) ∧
  let r := chainInto aliasJobClass jobJ1 (mkSuccessor "J2" 2 2 None) chainWorld in
  callsSince chainWorld r.1 = [EvUpdate "J1"; EvDelete "J2"] ∧
  handleJobsToDelete r.1 = Some ["J2"] ∧
  jobsToDelete <$> jobRecords r.1 !! "J1" = Some [] ∧
  command <$> jobRecords r.1 !! "J1" = Some (command jobJ2) ∧
  stack <$> jobRecords r.1 !! "J1" = Some (stack jobJ2) ∧
  jobRecords r.1 !! "J2" = None.
Proof. vm_compute. done. Qed.

(** ** The end of the worker *)

(** The first half of C8: a worker that did not fail and holds a shell with
    an empty stack deletes it. *)
Lemma finish_completes job w :
  command job = None → stack job = [] →
  finish job false w = delete_ (jobStoreID job) w.
Proof.
  intros Hc Hs. unfold finish. rewrite bind_run. cbn [ret negb andb].
  rewrite Hc, Hs. by rewrite bool_decide_eq_true_2.
Qed.

(** The chain loop and the body of [try] hand their exception on as a
    value: as programs of the monad they always return. *)
Lemma chainLoop_total cls execute timeExceeded fuel iter localID job messages w :
  ∃ w1 r, chainLoop cls execute timeExceeded fuel iter localID job messages w
          = (w1, inr r).
Proof.
  revert iter localID job messages w.
  induction fuel as [|fuel IH]; intros iter localID job messages w; cbn [chainLoop].
  - by eexists _, _.
  - destruct (command job) as [c|].
    + rewrite attempt_bind.
      destruct (runCommand execute job c w) as [w1 [e | r]]; cbn [fst snd].
      * by eexists _, _.
      * destruct (chainCheck _ _) as [e | [| s]];
          [by eexists _, _ | by eexists _, _ |].
        rewrite attempt_bind.
        destruct (chainInto cls r.1 s w1) as [w2 [e | job']]; cbn [fst snd].
        -- by eexists _, _.
        -- apply IH.
    + rewrite attempt_bind. unfold assert.
      destruct (_ =? _)%nat; by eexists _, _.
Qed.

Lemma tryBody_run cls execute timeExceeded statsEnabled fuel id w :
  ∃ w1 localID res,
    tryBlock cls execute timeExceeded statsEnabled fuel id w = (w1, inr (localID, res))
    ∧ tryBody cls execute timeExceeded statsEnabled fuel id w = (w1, res).
Proof.
  unfold tryBody. rewrite bind_run.
  assert (∃ w1 localID res,
    tryBlock cls execute timeExceeded statsEnabled fuel id w
    = (w1, inr (localID, res))) as (w1 & localID & res & H).
  { unfold tryBlock. rewrite attempt_bind.
    destruct ((job <- load id;; job0 <- pruneSuccessors job;; clearLogFile job0) w)
      as [w0 [e | job]]; cbn [fst snd]; [by eexists _, _, _ |].
    rewrite bind_run.
    destruct (chainLoop_total cls execute timeExceeded fuel 0 id job None w0)
      as (w1 & [localID [e | [[job' messages] |]]] & ->);
      [by eexists _, _, _ | | by eexists _, _, _].
    rewrite attempt_bind.
    destruct (finishStats statsEnabled messages w1) as [w2 [e | []]]; cbn [fst snd];
      by eexists _, _, _. }
  exists w1, localID, res. by rewrite H.
Qed.

Lemma main_completes cls execute timeExceeded statsEnabled fuel id w w1 job :
  tryBody cls execute timeExceeded statsEnabled fuel id w = (w1, inr (Some job)) →
  command job = None → stack job = [] →
  main cls execute timeExceeded statsEnabled fuel id w
  = (emit (EvDelete (jobStoreID job))
       (set_jobFiles (filter (λ kv, kv.2.1 ≠ jobStoreID job) (jobFiles w1))
          (set_jobRecords (delete (jobStoreID job) (jobRecords w1)) w1)),
     inr (Some tt)).
Proof.
  intros Hbody Hc Hs.
  destruct (tryBody_run cls execute timeExceeded statsEnabled fuel id w)
    as (w1' & localID & res & Hblock & Hbody').
  rewrite Hbody in Hbody'. injection Hbody' as <- <-.
  unfold main. rewrite bind_run, Hblock. rewrite bind_run.
  by rewrite finish_completes.
Qed.

(** The uploaded log is the tail of the captured one, 50000 bytes at most. *)
Lemma truncateData_tail tooBig (data : list byte) :
  truncateData tooBig data = drop (length data - tooBig) data ∧
  length (truncateData tooBig data) = (tooBig `min` length data)%nat.
Proof.
  unfold truncateData. destruct (tooBig <? length data)%nat eqn:E.
  - apply Nat.ltb_lt in E. split; [done |]. rewrite length_drop. lia.
  - apply Nat.ltb_ge in E.
    replace (length data - tooBig)%nat with 0%nat by lia. split; [done | lia].
Qed.

Lemma finish_failed job w :
  ∃ e, (finish job true w).2 = inl e
       ∧ jobRecords (finish job true w).1 = jobRecords w.
Proof.
  unfold finish. rewrite bind_run, bind_run. unfold truncateFile.
  destruct (workerLog w) as [data|] eqn:Hlog; [|by eexists].
  rewrite bind_run. unfold setLogFile. rewrite bind_run. cbn [get workerLog set_workerLog].
  rewrite bind_run. cbn. by eexists.
Qed.

(** After an exception in the body of [try] the handler reloads the job
    that the local [jobStoreID] names by then. *)
Lemma main_failed cls execute timeExceeded statsEnabled fuel id w w1 localID e :
  tryBlock cls execute timeExceeded statsEnabled fuel id w
  = (w1, inr (localID, inl e)) →
  main cls execute timeExceeded statsEnabled fuel id w =
  match jobRecords w1 !! localID with
  | Some job =>
      match finish (setupJobAfterFailure job) true w1 with
      | (w2, inr _) => (w2, inr (Some tt))
      | (w2, inl e') => (w2, inl e')
      end
  | None => (w1, inl (NoSuchJobException localID))
  end.
Proof.
  intros Hblock. unfold main. rewrite bind_run, Hblock.
  unfold onFailure, load, bind, ret.
  destruct (jobRecords w1 !! localID) as [job|]; [|done].
  by destruct (finish _ _ _) as [w2 [e'|[]]].
Qed.

(** C7, the divergence.  When an exception leaves the body of [try], the
    worker ends with an exception of its own, so with a non-zero exit
    status, and the records of the store are what they were when the first
    exception escaped: the annotated job is not persisted. *)
Theorem failed_worker_not_persisted (cls : JobClass)
    (execute : Job → M (Job * list string)) (timeExceeded : nat → bool)
    (statsEnabled : bool) (fuel : nat) (id : string) (w w1 : World) (e : exn) :
  tryBody cls execute timeExceeded statsEnabled fuel id w = (w1, inl e) →
  let r := main cls execute timeExceeded statsEnabled fuel id w in
  exitCode r.2 = 1 ∧ jobRecords r.1 = jobRecords w1.
Proof.
  intros Hbody r. subst r.
  destruct (tryBody_run cls execute timeExceeded statsEnabled fuel id w)
    as (w1' & localID & res & Hblock & Hbody').
  rewrite Hbody in Hbody'. injection Hbody' as <- <-.
  rewrite (main_failed _ _ _ _ _ _ _ _ _ _ Hblock).
  destruct (jobRecords w1 !! localID) as [job|]; [|done].
  destruct (finish_failed (setupJobAfterFailure job) w1) as (e' & He & Hrec).
  destruct (finish (setupJobAfterFailure job) true w1) as [w2 res].
  simpl in He, Hrec. by subst res.
Qed.

Lemma failed_worker_not_persisted_witness :
  let r := main specJobClass failingPayload neverOver false 10 "J1" chainWorld in
  exitCode r.2 = 1 ∧ jobRecords r.1 = jobRecords chainWorld.
Proof.
  apply (failed_worker_not_persisted specJobClass failingPayload neverOver false
           10 "J1" chainWorld chainWorld (PayloadError "boom")).
  vm_compute. reflexivity.
Defined.

(** What the failing run leaves behind: the log is uploaded as file 0, the
    record of [J1] keeps its retry count and names no log file. *)
Example failed_worker_chainWorld :
  let r := main specJobClass failingPayload neverOver false 10 "J1" chainWorld in
  r.2 = inl (AttributeError "store") ∧
  trace r.1 = [EvWriteFile 0%N] ∧
  jobRecords r.1 !! "J1" = Some jobJ1.
Proof. vm_compute. done. Qed.

(** C8, the divergence.  One worker on [J1] of the chain [J1 → J2 → J3]
    raises in its first chain step, takes the failure path and ends with an
    exception; all three records are still persisted. *)
Theorem chain_worker_leaves_records :
  let r := main specJobClass quietPayload neverOver false 10 "J1" chainWorld in
  r.2 = inl (AttributeError "store") ∧
  updatesOf "J1" (trace r.1) = 0%nat ∧ deletesIn (trace r.1) = 0%nat ∧
  jobRecords r.1 !! "J1" = Some jobJ1 ∧
  jobRecords r.1 !! "J2" = Some jobJ2 ∧
  jobRecords r.1 !! "J3" = Some jobJ3.
Proof. vm_compute. done. Qed.

(** Under the reading in which lines 340-341 pass, the same run consumes the
    chain and deletes [J1] last. *)
Example chain_worker_alias :
  let r := main aliasJobClass quietPayload neverOver false 10 "J1" chainWorld in
  r.2 = inr (Some tt) ∧
  trace r.1 = [EvUpdate "J1"; EvDelete "J2"; EvUpdate "J1"; EvDelete "J3";
               EvDelete "J1"] ∧
  jobRecords r.1 = ∅.
Proof. vm_compute. done. Qed.

(** ** Shared-file names *)

Lemma matchPlus_cons cls rest b c s :
  matchItems (RePlus cls :: rest) b (String c s)
  = cls c && (matchItems (RePlus cls :: rest) b s || matchItems rest false s).
Proof. reflexivity. Qed.

Lemma atEol_true s :
  atEol s = true ↔ s = EmptyString ∨ s = String newline EmptyString.
Proof.
  destruct s as [|c [|c' s]]; simpl.
  - split; [by left | done].
  - rewrite bool_decide_eq_true. split.
    + intros ->. by right.
    + intros [H | H]; [done | by injection H].
  - split; [done | intros [H | H]; done].
Qed.

Lemma validName_cons c s :
  validName (String c s) ↔
  nameChar c = true ∧ (s = EmptyString ∨ validName s).
Proof.
  unfold validName. simpl. rewrite andb_true_iff. split.
  - intros (_ & Hc & Hs). split; [done |].
    destruct s; [by left | by right].
  - intros (Hc & [-> | (_ & Hs)]); done.
Qed.

(** What the pattern accepts: the names of the class, and each of them
    followed by one newline. *)
Lemma validate_spec s :
  _validateSharedFileName s = true ↔
  validName s ∨ ∃ p, validName p ∧ s = String.append p (String newline EmptyString).
Proof.
  unfold _validateSharedFileName, sharedFileNameRegex.
  change (matchItems [ReBol; RePlus nameChar; ReEol] true s)
    with (matchItems [RePlus nameChar; ReEol] true s).
  induction s as [|c s IH].
  - split; [done |]. intros [[H _] | (p & [Hp _] & H)]; [done |].
    destruct p; [done | discriminate H].
  - rewrite matchPlus_cons, andb_true_iff, orb_true_iff, IH.
    cbn [matchItems]. rewrite andb_true_r, atEol_true. split.
    + intros (Hc & [[Hv | (p & Hp & ->)] | [-> | ->]]).
      * left. apply validName_cons. split; [done | by right].
      * right. exists (String c p). split; [|done].
        apply validName_cons. split; [done | by right].
      * left. apply validName_cons. split; [done | by left].
      * right. exists (String c EmptyString). split; [|done].
        apply validName_cons. split; [done | by left].
    + intros [Hv | (p & Hp & Heq)].
      * apply validName_cons in Hv as (Hc & Hs). split; [done |].
        destruct Hs as [-> | Hs]; [right; by left | left; by left].
      * destruct p as [|c' p]; [by destruct Hp |].
        injection Heq as -> ->.
        apply validName_cons in Hp as (Hc & Hs). split; [done |].
        destruct Hs as [-> | Hs]; [right; by right |].
        left. right. by exists p.
Qed.

(** C9, the divergence.  The pattern ends in [$], which also matches before
    a newline that ends the string: the name [config.xml] followed by a
    newline is accepted although the newline is not of the class. *)
Theorem validate_accepts_trailing_newline :
  _validateSharedFileName nameWithNewline = true ∧ ¬ validName nameWithNewline.
Proof.
  split; [reflexivity |]. intros [_ H]. vm_compute in H. discriminate H.
Qed.

(** ** The configuration across handles *)

Lemma forEach_sharedFiles {A} (body : A → M unit) (l : list A) w :
  (∀ x v, sharedFiles (body x v).1 = sharedFiles v) →
  sharedFiles (forEach l body w).1 = sharedFiles w.
Proof.
  intros H. revert w. induction l as [|x l IH]; intros w; [done |].
  simpl. rewrite bind_run. specialize (H x w).
  destruct (body x w) as [w' [e | []]]; simpl in H; [done |].
  by rewrite IH.
Qed.

Lemma cleanJob_sharedFiles job w :
  sharedFiles (cleanJob job w).1 = sharedFiles w.
Proof.
  rewrite cleanJob_run. cbv zeta.
  destruct (logJobStoreFileID _) as [f|].
  - by destruct (jobFiles w !! f).
  - by destruct (_ : bool).
Qed.

Lemma clean_sharedFiles w : sharedFiles (_clean w).1 = sharedFiles w.
Proof.
  unfold _clean, started. rewrite bind_run.
  destruct (rootCreated w); [|done].
  rewrite bind_run. cbn [jobs]. rewrite bind_run.
  assert (sharedFiles (deletePhase (collate (jobsOf w)) w).1 = sharedFiles w) as Hd.
  { unfold deletePhase. destruct (0 <? _)%nat; [|done].
    rewrite bind_run. cbn [jobs]. apply forEach_sharedFiles.
    intros job v. rewrite deleteBody_run. by case_bool_decide. }
  destruct (deletePhase _ w) as [w0 [e | []]]; simpl in Hd; [done |].
  rewrite <- Hd. unfold cleanPhase. rewrite bind_run. cbn [jobs].
  apply forEach_sharedFiles, cleanJob_sharedFiles.
Qed.

Section InitProperties.
Context {Element : Type}.
Variable serialize : Element → list byte.
Variable parse : list byte → option Element.

Lemma init_reads (cfg : Element) w :
  sharedFiles w !! "config.xml" = Some (serialize cfg) →
  parse (serialize cfg) = Some cfg →
  __init__ serialize parse None w = (_clean ;;; ret (mkHandle cfg)) w.
Proof.
  intros Hf Hp. unfold __init__, readConfig, readSharedFileStream.
  rewrite !bind_run, Hf, Hp. cbn [ret]. by rewrite bind_run.
Qed.

(** C10.  Given that the XML library parses what it wrote back to the
    element, a store constructed with the element [cfg] first writes
    [config.xml] and then runs the sweep on the store that holds it; when
    the construction returns, the handle's [config] is [cfg], and the
    construction without an element on any store whose [config.xml] is the
    one just left reads it, runs the sweep, and yields a handle whose
    [config] is [cfg]. *)
Theorem config_round_trip (cfg : Element) (w w1 : World) (h1 : Handle Element) :
  parse (serialize cfg) = Some cfg →
  __init__ serialize parse (Some cfg) w = (w1, inr h1) →
  let w0 := (writeSharedFileStream "config.xml" (serialize cfg) w).1 in
  trace w0 = trace w ++ [EvWriteShared "config.xml"] ∧
  sharedFiles w0 !! "config.xml" = Some (serialize cfg) ∧
  _clean w0 = (w1, inr tt) ∧
  config h1 = cfg ∧
  ∀ w2, sharedFiles w2 !! "config.xml" = sharedFiles w1 !! "config.xml" →
        __init__ serialize parse None w2 = (_clean ;;; ret (mkHandle cfg)) w2.
Proof.
  intros Hp Hinit w0.
  assert (sharedFiles w0 !! "config.xml" = Some (serialize cfg)) as Hw0
    by (unfold w0; cbn; apply lookup_insert_eq).
  revert Hinit. unfold __init__, writeConfig.
  rewrite !bind_run. cbn [writeSharedFileStream modify ret].
  change (emit _ _) with w0. rewrite bind_run.
  destruct (_clean w0) as [w' [e | []]] eqn:Hc; [done |].
  cbn [ret]. intros [= <- <-].
  repeat split; [done |].
  intros w2 Hw2. apply init_reads; [|done].
  rewrite Hw2. pose proof (clean_sharedFiles w0) as Hs.
  rewrite Hc in Hs. simpl in Hs. by rewrite Hs.
Qed.
End InitProperties.

Lemma config_round_trip_witness :
  let r := __init__ (λ e : list byte, e) Some (Some [x63; x66]%byte) emptyWorld in
  config (mkHandle [x63; x66]%byte) = [x63; x66]%byte ∧
  __init__ (λ e : list byte, e) Some None r.1
  = (_clean ;;; ret (mkHandle [x63; x66]%byte)) r.1.
Proof.
  intros r.
  destruct (config_round_trip (λ e : list byte, e) Some [x63; x66]%byte
              emptyWorld r.1 (mkHandle [x63; x66]%byte))
    as (_ & _ & _ & Hc & Hr); [reflexivity | reflexivity |].
  split; [exact Hc |]. apply Hr. reflexivity.
Defined.


(** * Further properties of the sources *)

(** ** Splitting and joining *)

Lemma splitOn_cons sep s : ∃ seg segs, splitOn sep s = seg :: segs.
Proof.
  induction s as [|c s (seg & segs & IH)]; simpl; [by eexists _, _ |].
  case_bool_decide; [by eexists _, _ |]. rewrite IH. by eexists _, _.
Qed.

Lemma join_cons_char sep c seg segs :
  join sep (String c seg :: segs) = String c (join sep (seg :: segs)).
Proof. by destruct segs. Qed.

Lemma join_splitOn sep s : join (String sep EmptyString) (splitOn sep s) = s.
Proof.
  induction s as [|c s IH]; [done |]. simpl.
  destruct (splitOn_cons sep s) as (seg & segs & Hs). rewrite Hs in *.
  case_bool_decide as Hc.
  - change (join (String sep EmptyString) (EmptyString :: seg :: segs))
      with (String sep (join (String sep EmptyString) (seg :: segs))).
    by rewrite IH, Hc.
  - by rewrite join_cons_char, IH.
Qed.

Lemma splitOn_no_sep sep s :
  Forall (λ seg, occurs sep seg = false) (splitOn sep s).
Proof.
  induction s as [|c s IH]; simpl; [by constructor |].
  case_bool_decide as Hc; [by constructor |].
  destruct (splitOn sep s) as [|seg segs]; [by repeat constructor; simpl; rewrite bool_decide_eq_false_2 |].
  apply Forall_cons in IH as [H1 H2]. constructor; [|done].
  simpl. by rewrite bool_decide_eq_false_2.
Qed.

Lemma splitOn_single sep s :
  occurs sep s = false ↔ splitOn sep s = [s].
Proof.
  induction s as [|c s IH]; simpl; [done |].
  case_bool_decide as Hc; simpl.
  - split; [done |]. intros H. destruct (splitOn_cons sep s) as (seg & segs & Hs).
    rewrite Hs in H. discriminate H.
  - rewrite IH. destruct (splitOn_cons sep s) as (seg & segs & Hs). rewrite Hs.
    split; [by intros [= -> ->] | by intros [= -> ->]].
Qed.

Lemma append_cons x (a b : string) : String x a +:+ b = String x (a +:+ b).
Proof. reflexivity. Qed.

Lemma append_assoc (a b c : string) : (a +:+ b) +:+ c = a +:+ b +:+ c.
Proof.
  induction a as [|x a IH]; [done |]. by rewrite !append_cons, IH.
Qed.


Lemma join_snoc sep l x :
  l ≠ [] → join sep (l ++ [x]) = join sep l +:+ sep +:+ x.
Proof.
  induction l as [|y l IH]; [done |]. intros _.
  destruct l as [|z l]; [done |].
  change (join sep ((y :: z :: l) ++ [x]))
    with (y +:+ sep +:+ join sep ((z :: l) ++ [x])).
  rewrite IH by done. cbn [join].
  by rewrite !append_assoc.
Qed.

(** ** The command of a target *)

(** X1.  The class token [a.b.C] is imported as class [C] of module [a.b]:
    the class name holds no dot, a token with a dot is the module name, a
    dot and the class name, and a token without a dot gives the empty module
    name and the token as class name. *)
Theorem splitClassName_spec (name : string) :
  occurs "."%char (splitClassName name).2 = false ∧
  (occurs "."%char name = false → splitClassName name = (EmptyString, name)) ∧
  (occurs "."%char name = true →
   name = (splitClassName name).1 +:+ "." +:+ (splitClassName name).2).
Proof.
  unfold splitClassName. cbn [fst snd].
  destruct (splitOn_cons "."%char name) as (seg & segs & Hl).
  pose proof (splitOn_no_sep "."%char name) as Hno.
  pose proof (join_splitOn "."%char name) as Hjoin.
  rewrite Hl in *.
  assert (seg :: segs ≠ []) as Hne by done.
  pose proof (app_removelast_last EmptyString Hne) as Hsplit.
  split; [|split].
  - rewrite Forall_forall in Hno. apply Hno.
    rewrite Hsplit at 2. apply elem_of_app. right. left.
  - intros Hocc. apply splitOn_single in Hocc. rewrite Hl in Hocc.
    by injection Hocc as -> ->.
  - intros Hocc.
    destruct (removelast (seg :: segs)) as [|m ms] eqn:Hrl.
    + simpl in Hsplit. rewrite Hsplit in Hjoin, Hl.
      cbn [join] in Hjoin. rewrite Hjoin in Hl.
      apply splitOn_single in Hl. congruence.
    + rewrite <- Hjoin at 1. rewrite Hsplit at 1.
      by rewrite join_snoc.
Qed.

Lemma splitClassName_spec_witness :
  "pkg.mod.Cls" = (splitClassName "pkg.mod.Cls").1 +:+ "." +:+ (splitClassName "pkg.mod.Cls").2.
Proof.
  destruct (splitClassName_spec "pkg.mod.Cls") as (_ & _ & H).
  apply H. reflexivity.
Defined.

Lemma scriptTree_prefix (c : string) :
  substring 0 11 c = "scriptTree " → ∃ rest, c = "scriptTree " +:+ rest.
Proof.
  intros H.
  do 11 (destruct c as [|? c]; [discriminate H |];
         cbn [substring] in H; injection H as <- H).
  by exists c.
Qed.

Lemma splitClassName_no_dot (name : string) :
  occurs "."%char name = false → splitClassName name = (EmptyString, name).
Proof.
  intros Hocc. unfold splitClassName.
  apply splitOn_single in Hocc. by rewrite Hocc.
Qed.

Lemma importClasses_app
    (importClass : list string → string → string → option exn)
    (sys_path before after : list string) :
  importClasses importClass sys_path before = None →
  importClasses importClass sys_path (before ++ after)
  = importClasses importClass sys_path after.
Proof.
  induction before as [|t before IH]; [done |]. cbn [importClasses app].
  case_bool_decide; [done |].
  destruct (importClass sys_path _ _); [done |]. apply IH.
Qed.

(** X2.  A command that passes the test of line 265, [command[:11] ==
    "scriptTree "], has [scriptTree] as its first word, the condition of the
    assertion of line 66.  With fewer than three words [loadTarget] raises
    [IndexError] and leaves [sys.path] alone.  With three or more, a class
    token without a dot makes [importlib.import_module] raise [ValueError]
    when the tokens before it import, and the pickle is not read, whatever
    it holds; when every class token imports, the outcome is that of
    unpickling the file named by the second word. *)
Theorem loadTarget_after_prefix_test {Target : Type}
    (importClass : list string → string → string → option exn)
    (loadPickleFile : string → exn + Target)
    (command : string) (sys_path : list string) :
  substring 0 11 command = "scriptTree " →
  let r := loadTarget importClass loadPickleFile command sys_path in
  split command !! 0%nat = Some "scriptTree" ∧
  ((length (split command) < 3)%nat → r = (sys_path, inl IndexError)) ∧
  (∀ before token after,
     drop 3 (split command) = before ++ token :: after →
     occurs "."%char token = false →
     importClasses importClass r.1 before = None →
     r.2 = inl (ValueError "Empty module name")) ∧
  (∀ pickleFile,
     split command !! 1%nat = Some pickleFile →
     (3 ≤ length (split command))%nat →
     importClasses importClass r.1 (drop 3 (split command)) = None →
     r.2 = loadPickleFile pickleFile).
Proof.
  intros (rest & ->)%scriptTree_prefix r.
  assert (split ("scriptTree " +:+ rest) = "scriptTree" :: split rest) as Hs
    by reflexivity.
  subst r. unfold loadTarget. rewrite Hs. cbn [lookup list_lookup].
  rewrite bool_decide_eq_true_2 by done.
  destruct (split rest) as [|t1 [|t2 ts]]; cbn [lookup list_lookup length drop].
  - split; [done |]. split; [done |]. split; [by intros [|] |]. intros; lia.
  - split; [done |]. split; [done |]. split; [by intros [|] |]. intros; lia.
  - split; [done |]. split; [lia |]. cbn [fst snd].
    set (sys_path' := if bool_decide (t2 ∈ sys_path) then sys_path else _).
    assert (∀ (x : option exn) (y : exn + Target),
      (match x with Some e => (sys_path', inl e) | None => (sys_path', y) end).1
      = sys_path') as Hfst by (by intros []).
    rewrite !Hfst. split.
    + intros before token after -> Hdot Hbefore.
      assert (importClasses importClass sys_path' (before ++ token :: after)
              = Some (ValueError "Empty module name")) as ->; [|done].
      rewrite importClasses_app by done. cbn [importClasses].
      rewrite (splitClassName_no_dot token Hdot). cbn [fst].
      by rewrite bool_decide_eq_true_2.
    + intros pickleFile [= <-] _ E. by rewrite E.
Qed.

Lemma loadTarget_after_prefix_test_witness :
  (loadTarget (λ _ _ _, None) (λ _, inr tt) "scriptTree f1 d C" ["a"]).2
  = inl (ValueError "Empty module name").
Proof.
  destruct (loadTarget_after_prefix_test (λ _ _ _, None) (λ _, inr tt)
              "scriptTree f1 d C" ["a"]) as (_ & _ & H & _); [reflexivity |].
  apply (H [] "C" []); reflexivity.
Defined.

(** X3.  [loadTarget] adds the module directory, the third word of the
    command, at the end of [sys.path] and only when it is not there yet:
    the entries already there keep their places, the directory is on the
    path afterwards, and a path without repetitions stays so.  This holds
    whenever the call returns a target, and more generally whenever it gets
    past line 72, also when an import or the unpickling raises after it; a
    call that raises before leaves [sys.path] alone. *)
Theorem loadTarget_sys_path {Target : Type}
    (importClass : list string → string → string → option exn)
    (loadPickleFile : string → exn + Target)
    (command : string) (sys_path : list string) :
  let r := loadTarget importClass loadPickleFile command sys_path in
  (∀ target, r.2 = inr target →
     ∃ moduleDirPath,
       split command !! 2%nat = Some moduleDirPath ∧
       moduleDirPath ∈ r.1 ∧
       (moduleDirPath ∈ sys_path → r.1 = sys_path) ∧
       (moduleDirPath ∉ sys_path → r.1 = sys_path ++ [moduleDirPath]) ∧
       (NoDup sys_path → NoDup r.1)) ∧
  (∀ moduleDirPath,
     split command !! 0%nat = Some "scriptTree" →
     split command !! 2%nat = Some moduleDirPath →
     moduleDirPath ∈ r.1 ∧
     (moduleDirPath ∈ sys_path → r.1 = sys_path) ∧
     (moduleDirPath ∉ sys_path → r.1 = sys_path ++ [moduleDirPath]) ∧
     (NoDup sys_path → NoDup r.1)) ∧
  (split command !! 0%nat ≠ Some "scriptTree" ∨ split command !! 2%nat = None →
   r.1 = sys_path).
Proof.
  intros r. subst r. unfold loadTarget.
  destruct (split command !! 0%nat) as [marker|];
    [|split; [done | split; [done | done]]].
  case_bool_decide as Hm;
    [subst marker | split; [done | split; [by intros ? [= ->] | done]]].
  destruct (split command !! 2%nat) as [dir|];
    [|split; [done | split; [done | done]]].
  assert (∀ x : list string * (exn + Target),
    (let sys_path' := if bool_decide (dir ∈ sys_path) then sys_path
                      else sys_path ++ [dir] in
     match importClasses importClass sys_path' (drop 3 (split command)) with
     | Some e => (sys_path', inl e)
     | None => match split command !! 1%nat with
               | Some pickleFile => (sys_path', loadPickleFile pickleFile)
               | None => (sys_path', inl IndexError)
               end
     end) = x →
    x.1 = if bool_decide (dir ∈ sys_path) then sys_path else sys_path ++ [dir])
    as Hfst.
  { intros x <-. cbv zeta. destruct (importClasses _ _ _); [done |].
    by destruct (split command !! 1%nat). }
  cbv zeta in Hfst. rewrite (Hfst _ eq_refl).
  assert (dir ∈ (if bool_decide (dir ∈ sys_path) then sys_path else sys_path ++ [dir]) ∧
    (dir ∈ sys_path →
     (if bool_decide (dir ∈ sys_path) then sys_path else sys_path ++ [dir]) = sys_path) ∧
    (dir ∉ sys_path →
     (if bool_decide (dir ∈ sys_path) then sys_path else sys_path ++ [dir])
     = sys_path ++ [dir]) ∧
    (NoDup sys_path →
     NoDup (if bool_decide (dir ∈ sys_path) then sys_path else sys_path ++ [dir])))
    as Hpath.
  { case_bool_decide as Hin.
    - by split_and!.
    - split_and!; [set_solver | done | done |].
      intros Hnd. apply NoDup_app. split; [done |].
      split; [|apply NoDup_singleton].
      intros x Hx ->%list_elem_of_singleton. done. }
  split; [intros target _; by exists dir |]. split.
  - by intros ? _ [= <-].
  - by intros [? | ?].
Qed.

Lemma loadTarget_sys_path_witness :
  ∃ moduleDirPath,
    split "scriptTree f1 d m.C" !! 2%nat = Some moduleDirPath ∧
    moduleDirPath
    ∈ (loadTarget (λ _ _ _, None) (λ _, inr tt) "scriptTree f1 d m.C" ["a"]).1.
Proof.
  destruct (loadTarget_sys_path (λ _ _ _, None) (λ _, inr tt)
              "scriptTree f1 d m.C" ["a"]) as (H & _).
  destruct (H tt) as (dir & H1 & H2 & _); [reflexivity |].
  by exists dir.
Defined.

(** ** Arguments and environment of the worker *)

Lemma list_remove_second (a0 a1 : string) (rest : list string) :
  list_remove a1 (a0 :: a1 :: rest) = Some (a0 :: rest).
Proof.
  cbn [list_remove]. case_bool_decide as H0.
  - by subst a0.
  - by rewrite bool_decide_eq_true_2.
Qed.

(** X4.  [sys.argv.remove(sys.argv[1])] removes the first item equal to
    the module directory; even when the script name equals it, what is left
    is the argument vector without its position 1.  So with four arguments
    or more the store is the old third and the job the old fourth, the
    directory goes to the end of [sys.path], and with fewer the worker stops
    on [IndexError]; [ValueError] cannot occur. *)
Theorem readArguments_spec (sys_path argv : list string) :
  readArguments sys_path argv ≠ inl ArgValueError ∧
  ((length argv < 4)%nat → readArguments sys_path argv = inl ArgIndexError) ∧
  (∀ script dir jobStoreString jobStoreID rest,
     argv = script :: dir :: jobStoreString :: jobStoreID :: rest →
     readArguments sys_path argv = inr (sys_path ++ [dir], jobStoreString, jobStoreID)).
Proof.
  unfold readArguments.
  destruct argv as [|a0 [|a1 rest]]; cbn [lookup list_lookup length].
  - split; [done |]. split; [done |]. by intros.
  - split; [done |]. split; [done |]. by intros.
  - rewrite list_remove_second. cbn [lookup list_lookup].
    destruct rest as [|s [|j rest]]; cbn [lookup list_lookup length].
    + split; [done |]. split; [done |]. by intros.
    + split; [done |]. split; [done |]. by intros.
    + split; [done |]. split; [lia |]. by intros ????? [= -> -> -> -> ->].
Qed.

Lemma loadEnvironment_fold (l : list (string * string)) (env : gmap string string) k :
  NoDup l.*1 →
  foldl (λ env iv, if bool_decide (iv.1 ∈ keptNames) then env
                   else <[iv.1 := iv.2]> env) env l !! k
  = if bool_decide (k ∈ keptNames) then env !! k
    else match (list_to_map l : gmap string string) !! k with
         | Some v => Some v
         | None => env !! k
         end.
Proof.
  revert env. induction l as [|[i v] l IH]; intros env Hnd.
  - cbn. by case_bool_decide.
  - apply NoDup_cons in Hnd as [Hi Hnd]. cbn [foldl fst snd].
    rewrite IH by done. cbn [list_to_map foldr fst snd uncurry].
    case_bool_decide as Hk.
    + case_bool_decide as Hi'; [done |].
      rewrite lookup_insert_ne; [done | congruence].
    + destruct (decide (i = k)) as [-> | Hne].
      * rewrite lookup_insert_eq.
        rewrite (not_elem_of_list_to_map_1 l k) by done.
        rewrite bool_decide_eq_false_2 by done. by rewrite lookup_insert_eq.
      * rewrite (lookup_insert_ne _ i k) by done.
        destruct (list_to_map l !! k); [done |].
        case_bool_decide; [done |]. by rewrite lookup_insert_ne.
Qed.

(** X5.  After the loop over the pickled environment, [os.environ] keeps
    what it had under [TMPDIR], [TMP], [HOSTNAME] and [HOSTTYPE]; every other
    name of the pickled environment has the pickled value, and names the
    pickled environment does not have are as before. *)
Theorem loadEnvironment_lookup (environment os_environ : gmap string string)
    (name : string) :
  loadEnvironment environment os_environ !! name
  = if bool_decide (name ∈ keptNames) then os_environ !! name
    else match environment !! name with
         | Some v => Some v
         | None => os_environ !! name
         end.
Proof.
  unfold loadEnvironment. rewrite loadEnvironment_fold
    by apply NoDup_fst_map_to_list.
  by rewrite list_to_map_to_list.
Qed.

Lemma extendPath_fold (segs path : list string) :
  foldl (λ path e, if bool_decide (e ≠ EmptyString) then path ++ [e] else path)
        path segs
  = path ++ List.filter (λ e, bool_decide (e ≠ EmptyString)) segs.
Proof.
  revert path. induction segs as [|e segs IH]; intros path; simpl.
  - by rewrite app_nil_r.
  - rewrite IH. case_bool_decide; [by rewrite <- app_assoc | done].
Qed.

(** X6.  The entries of [PYTHONPATH] go to the end of [sys.path] in their
    order, the empty ones left out; the entries that were there keep their
    places, and without [PYTHONPATH] in the pickled environment the path is
    unchanged.  The segments that are cut are those of the value: joined
    with colons they give it back. *)
Theorem extendPath_spec (environment : gmap string string) (sys_path : list string) :
  match environment !! "PYTHONPATH" with
  | None => extendPath environment sys_path = sys_path
  | Some p =>
      extendPath environment sys_path
      = sys_path ++ List.filter (λ e, bool_decide (e ≠ EmptyString)) (splitOn ":"%char p)
      ∧ join ":" (splitOn ":"%char p) = p
      ∧ (∀ e, e ∈ extendPath environment sys_path →
              e ∈ sys_path ∨ (e ≠ EmptyString ∧ occurs ":"%char e = false))
  end.
Proof.
  unfold extendPath. destruct (environment !! "PYTHONPATH") as [p|]; [|done].
  rewrite extendPath_fold. split; [done |]. split; [apply join_splitOn |].
  intros e [He | He]%elem_of_app; [by left |]. right.
  apply list_elem_of_In, List.filter_In in He as [He Hne].
  apply bool_decide_eq_true in Hne. split; [done |].
  pose proof (splitOn_no_sep ":"%char p) as Hno.
  rewrite Forall_forall in Hno. by apply Hno, list_elem_of_In.
Qed.

(** ** More on the recovery sweep *)






Lemma sweepFrame_refl w : sweepFrame w w.
Proof. unfold sweepFrame. by split_and!. Qed.

Lemma sweepFrame_trans w1 w2 w3 :
  sweepFrame w1 w2 → sweepFrame w2 w3 → sweepFrame w1 w3.
Proof.
  intros (A1 & A2 & A3 & A4 & A5 & A6 & A7) (B1 & B2 & B3 & B4 & B5 & B6 & B7).
  unfold sweepFrame. split_and!; try congruence; [set_solver | by etrans].
Qed.

Lemma forEach_frame {A} (body : A → M unit) (l : list A) w :
  (∀ x v, sweepFrame v (body x v).1) → sweepFrame w (forEach l body w).1.
Proof.
  intros H. revert w. induction l as [|x l IH]; intros w; [apply sweepFrame_refl |].
  simpl. rewrite bind_run. specialize (H x w).
  destruct (body x w) as [w' [e | []]]; [done |].
  eapply sweepFrame_trans; [exact H | apply IH].
Qed.

Lemma deleteBody_frame U job v : sweepFrame v (deleteBody U job v).1.
Proof.
  rewrite deleteBody_run. case_bool_decide; [|apply sweepFrame_refl].
  unfold sweepFrame. cbn. split_and!; try done;
    [apply dom_filter_subseteq | by apply prefix_app_r].
Qed.

Lemma cleanJob_frame job v : sweepFrame v (cleanJob job v).1.
Proof.
  rewrite cleanJob_run. cbv zeta.
  destruct (logJobStoreFileID _) as [f|].
  - destruct (jobFiles v !! f); [|apply sweepFrame_refl].
    unfold sweepFrame. cbn. split_and!; try done.
    + rewrite dom_delete_L. set_solver.
    + rewrite <- app_assoc. by apply prefix_app_r.
  - destruct (_ : bool); [|apply sweepFrame_refl].
    unfold sweepFrame. cbn. split_and!; try done. by apply prefix_app_r.
Qed.


(** X9.  Whatever its outcome, a sweep leaves the shared files, the
    counter of file IDs, the started flag and the worker's side of the world
    as they are, adds no per-job file, and only appends to the trace of
    calls. *)
Theorem clean_frame (w : World) : sweepFrame w (_clean w).1.
Proof.
  unfold _clean, started. rewrite bind_run.
  destruct (rootCreated w); [|apply sweepFrame_refl].
  rewrite bind_run. cbn [jobs]. rewrite bind_run.
  assert (sweepFrame w (deletePhase (collate (jobsOf w)) w).1) as Hd.
  { unfold deletePhase. destruct (0 <? _)%nat; [|apply sweepFrame_refl].
    rewrite bind_run. cbn [jobs]. apply forEach_frame, deleteBody_frame. }
  destruct (deletePhase _ w) as [w0 [e | []]]; [done |].
  eapply sweepFrame_trans; [exact Hd |].
  unfold cleanPhase. rewrite bind_run. cbn [jobs].
  apply forEach_frame, cleanJob_frame.
Qed.

(** ** What the sweep does to the records *)

Lemma cleanJob_records job v :
  jobRecords (cleanJob job v).1 = jobRecords v ∨
  ∃ job', jobRecords (cleanJob job v).1 = <[jobStoreID job := job']> (jobRecords v)
          ∧ coreOf job' = coreOf job ∧ jobsToDelete job' = [].
Proof.
  rewrite cleanJob_run. cbv zeta.
  assert (∀ b : bool, (b = false → jobsToDelete job = []) →
    coreOf (if b then (set_jobsToDelete [] job, true) else (job, false)).1
    = coreOf job
    ∧ jobsToDelete (if b then (set_jobsToDelete [] job, true) else (job, false)).1
      = []) as Hb.
  { intros [] Hd; cbn; [done |]. by rewrite Hd. }
  destruct (Hb (negb (length (jobsToDelete job) =? 0)%nat)) as (Hcore & Hdel).
  { intros Hl. apply negb_false_iff, Nat.eqb_eq in Hl. by apply nil_length_inv. }
  set (r1 := if negb _ then _ else _) in *.
  assert (jobStoreID r1.1 = jobStoreID job) as Hid by (by injection Hcore).
  destruct (logJobStoreFileID _) as [f|].
  - destruct (jobFiles v !! f); [|by left].
    right. eexists. cbn. rewrite Hid. split; [reflexivity |]. by split.
  - destruct (r1.2); [|by left].
    right. eexists. cbn. rewrite Hid. split; [reflexivity |]. by split.
Qed.

Lemma cleanLoop_core (v0 : World) (js : list Job) (v : World) :
  (∀ job, job ∈ js → jobRecords v0 !! jobStoreID job = Some job) →
  fromStore v0 v → fromStore v0 (forEach js cleanJob v).1.
Proof.
  revert v. induction js as [|j js IH]; intros v Hjs Hinv; [done |].
  simpl. rewrite bind_run.
  pose proof (cleanJob_records j v) as Hstep.
  assert (fromStore v0 (cleanJob j v).1) as Hinv1.
  { destruct Hstep as [Hv1 | (j' & Hv1 & Hcore & Hdel)]; intros id x; rewrite Hv1.
    - apply Hinv.
    - destruct (decide (jobStoreID j = id)) as [<- | Hne].
      + rewrite lookup_insert_eq. intros [= <-]. exists j.
        split; [apply Hjs; left |]. split; [done | by left].
      + rewrite lookup_insert_ne by done. apply Hinv. }
  destruct (cleanJob j v) as [v1 [e | []]]; cbn [fst] in *; [done |].
  apply IH; [intros job Hin; apply Hjs; by right | done].
Qed.

Lemma deletePhase_lookup U w id :
  jobRecords (deletePhase U w).1 !! id = None ∨
  jobRecords (deletePhase U w).1 !! id = jobRecords w !! id.
Proof.
  unfold deletePhase. destruct (0 <? size U)%nat; [|by right].
  rewrite bind_run. cbn [jobs].
  destruct (deleteLoop_spec U (jobsOf w) w) as (_ & Hdel & Hkeep).
  destruct (decide (Exists (λ job, jobStoreID job = id ∧ updateID job ∈ U) (jobsOf w)))
    as [Hex | Hnex]; [left; by apply Hdel | right; by apply Hkeep].
Qed.

Lemma fromStore_refl w : fromStore w w.
Proof. intros id j' H. exists j'. split; [done |]. split; [done | by right]. Qed.

Lemma clean_core (w : World) :
  storeKeyed w → fromStore w (_clean w).1.
Proof.
  intros Hk. unfold _clean, started. rewrite bind_run.
  destruct (rootCreated w); [|apply fromStore_refl].
  rewrite bind_run. cbn [jobs]. rewrite bind_run.
  pose proof (deletePhase_keyed (collate (jobsOf w)) w Hk) as Hk0.
  pose proof (deletePhase_lookup (collate (jobsOf w)) w) as Hl.
  assert (fromStore w (deletePhase (collate (jobsOf w)) w).1) as H0.
  { intros id j' H. destruct (Hl id) as [Hn | He]; [congruence |].
    rewrite He in H. by apply fromStore_refl. }
  destruct (deletePhase _ w) as [w0 [e | []]]; cbn [fst] in *; [done |].
  unfold cleanPhase. rewrite bind_run. cbn [jobs].
  intros id j' H.
  destruct (cleanLoop_core w0 (jobsOf w0) w0) with (id := id) (j' := j')
    as (j & Hj & Hcore & Hdel); [| apply fromStore_refl | done |].
  { intros job (i & Hi)%elem_of_jobsOf. by rewrite (Hk0 _ _ Hi). }
  destruct (H0 id j Hj) as (j0 & Hj0 & Hcore0 & Hdel0).
  exists j0. split; [done |]. split; [congruence |].
  destruct Hdel as [-> | ->]; [by left | done].
Qed.

(** X10.  Whatever its outcome, a sweep creates no record and changes none
    but in [jobsToDelete], [stack] and [logJobStoreFileID]: every record
    persisted afterwards was persisted before under the same ID with the
    same command, memory, cpu, update ID, predecessor fields and retry
    count. *)
Theorem clean_keeps_core (w : World) (id : string) (job' : Job) :
  storeKeyed w →
  jobRecords (_clean w).1 !! id = Some job' →
  ∃ job, jobRecords w !! id = Some job ∧ coreOf job' = coreOf job.
Proof.
  intros Hk H. destruct (clean_core w Hk id job' H) as (job & Hj & Hcore & _).
  by exists job.
Qed.

Lemma clean_keeps_core_witness :
  ∃ job, jobRecords crashedWorld !! "P" = Some job
         ∧ coreOf (set_jobsToDelete [] jobP) = coreOf job.
Proof.
  apply (clean_keeps_core crashedWorld "P" (set_jobsToDelete [] jobP)).
  - apply (bool_decide_unpack _). vm_compute. reflexivity.
  - vm_compute. reflexivity.
Defined.

(** X11.  The sweep keeps the store keyed: when every record is filed under
    its own [jobStoreID] before, so it is afterwards, whatever the outcome. *)
Theorem clean_keeps_keyed (w : World) :
  storeKeyed w → storeKeyed (_clean w).1.
Proof.
  intros Hk id job' H.
  destruct (clean_core w Hk id job' H) as (job & Hj & Hcore & _).
  injection Hcore as -> _. by apply Hk.
Qed.

Lemma clean_keeps_keyed_witness : storeKeyed (_clean crashedWorld).1.
Proof.
  apply (clean_keeps_keyed crashedWorld).
  apply (bool_decide_unpack _). vm_compute. reflexivity.
Defined.

(** X12.  After a sweep of a started store no record is left whose
    [updateID] some record announced in its [jobsToDelete], whatever the
    outcome of the third loop. *)
Theorem clean_leaves_no_orphan (w : World) (id : string) (job' : Job) :
  storeKeyed w →
  rootCreated w = true →
  jobRecords (_clean w).1 !! id = Some job' →
  updateID job' ∉ collate (jobsOf w).
Proof.
  intros Hk Hs. unfold _clean, started. rewrite bind_run, Hs.
  rewrite bind_run. cbn [jobs]. rewrite bind_run.
  destruct (deletePhase_spec (collate (jobsOf w)) w Hk) as (Hr & Hdel & Hkeep & Hnew).
  pose proof (deletePhase_keyed (collate (jobsOf w)) w Hk) as Hk0.
  destruct (deletePhase _ w) as [w0 r]. cbn [fst snd] in *. subst r.
  unfold cleanPhase. rewrite bind_run. cbn [jobs]. intros H.
  destruct (cleanLoop_core w0 (jobsOf w0) w0) with (id := id) (j' := job')
    as (j & Hj & Hcore & _); [| apply fromStore_refl | done |].
  { intros job (i & Hi)%elem_of_jobsOf. by rewrite (Hk0 _ _ Hi). }
  assert (updateID job' = updateID j) as -> by (by injection Hcore).
  intros HU. destruct (jobRecords w !! id) as [j0|] eqn:Hj0.
  - destruct (decide (updateID j0 ∈ collate (jobsOf w))) as [HU0 | HU0].
    + by rewrite (Hdel _ _ Hj0 HU0) in Hj.
    + rewrite (Hkeep _ _ Hj0 HU0) in Hj. by injection Hj as ->.
  - by rewrite (Hnew _ Hj0) in Hj.
Qed.

Lemma clean_leaves_no_orphan_witness :
  updateID jobP ∉ collate (jobsOf crashedWorld).
Proof.
  apply (clean_leaves_no_orphan crashedWorld "P" (set_jobsToDelete [] jobP)).
  - apply (bool_decide_unpack _). vm_compute. reflexivity.
  - reflexivity.
  - vm_compute. reflexivity.
Defined.

(** X13.  After a sweep of a started store that returns, no record
    announces an update ID and none names a log file. *)
Theorem clean_clears_intents (w w1 : World) (id : string) (job : Job) :
  storeKeyed w →
  rootCreated w = true →
  _clean w = (w1, inr tt) →
  jobRecords w1 !! id = Some job →
  jobsToDelete job = [] ∧ logJobStoreFileID job = None.
Proof.
  intros Hk Hs. unfold _clean, started. rewrite bind_run, Hs.
  rewrite bind_run. cbn [jobs]. rewrite bind_run.
  destruct (deletePhase_spec (collate (jobsOf w)) w Hk) as (Hr & _).
  pose proof (deletePhase_keyed (collate (jobsOf w)) w Hk) as Hk0.
  destruct (deletePhase _ w) as [w0 r]. cbn [fst snd] in *. subst r.
  intros Hc Hj.
  destruct (cleanPhase_settles w0 w1 Hk0 Hc job) as (H1 & H2); [|done].
  apply elem_of_jobsOf. by exists id.
Qed.

Lemma clean_clears_intents_witness :
  jobsToDelete (set_jobsToDelete [] jobP) = []
  ∧ logJobStoreFileID (set_jobsToDelete [] jobP) = None.
Proof.
  apply (clean_clears_intents crashedWorld (_clean crashedWorld).1 "P").
  - apply (bool_decide_unpack _). vm_compute. reflexivity.
  - reflexivity.
  - vm_compute. reflexivity.
  - vm_compute. reflexivity.
Defined.

(** ** The sweep run twice *)











(** A crashed store with a record that names a log file which is not there;
    the first sweep deletes the orphan [K], clears [P] and raises at [L]. *)
Example clean_danglingWorld :
  storeKeyed danglingWorld ∧
  (∃ r, r ∈ jobsOf danglingWorld ∧ logJobStoreFileID r = Some 7%N) ∧
  jobFiles danglingWorld !! 7%N = None ∧
  deletesIn (trace (_clean danglingWorld).1) = 1%nat ∧
  (∃ e, (_clean danglingWorld).2 = inl e).
Proof.
  split; [apply (bool_decide_unpack _); vm_compute; reflexivity |].
  split; [exists jobL; split; [|done] |].
  { apply elem_of_jobsOf. by exists "L". }
  split; [done |]. split; [vm_compute; reflexivity |].
  eexists. vm_compute. reflexivity.
Qed.


(** The fixed point on the crashed store: one sweep deletes the orphan [K]
    and clears [P]; the root [R] keeps its three entries in the store; the
    next sweep makes no call. *)
Example clean_crashedWorld :
  (_clean crashedWorld).2 = inr tt ∧
  trace (_clean crashedWorld).1 = [EvDelete "K"; EvUpdate "P"] ∧
  jobRecords (_clean crashedWorld).1 !! "R" = Some jobR ∧
  _clean (_clean crashedWorld).1 = ((_clean crashedWorld).1, inr tt).
Proof. vm_compute. done. Qed.

(** ** More on the worker *)

(** X14.  [truncateFile] keeps a tail of the file: the new contents are a
    suffix of the old, as long as the old or [tooBig] bytes, whichever is
    less; a file of at most [tooBig] bytes is not touched, and truncating
    twice is truncating once. *)
Theorem truncateData_spec (tooBig : nat) (data : list byte) :
  truncateData tooBig data `suffix_of` data ∧
  length (truncateData tooBig data) = (tooBig `min` length data)%nat ∧
  ((length data ≤ tooBig)%nat → truncateData tooBig data = data) ∧
  truncateData tooBig (truncateData tooBig data) = truncateData tooBig data.
Proof.
  assert (∀ d : list byte, (length d ≤ tooBig)%nat → truncateData tooBig d = d) as Hsmall.
  { intros d Hd. unfold truncateData.
    by replace (tooBig <? length d)%nat with false by (symmetry; apply Nat.ltb_ge; lia). }
  assert (length (truncateData tooBig data) = (tooBig `min` length data)%nat) as Hlen.
  { unfold truncateData. destruct (tooBig <? length data)%nat eqn:E.
    - apply Nat.ltb_lt in E. rewrite length_drop. lia.
    - apply Nat.ltb_ge in E. lia. }
  split; [|split; [done | split; [apply Hsmall |]]].
  - unfold truncateData. destruct (tooBig <? length data)%nat; [apply suffix_drop | done].
  - apply Hsmall. lia.
Qed.



(** X16.  A group without successors stops the cleanup: for a job without
    command whose stack has an empty group under groups whose first
    successors are gone, the cleanup raises [IndexError] at [jobs[0]]. *)
Theorem pruneSuccessors_empty_group (w : World) (job : Job)
    (below above : list (list Successor)) :
  command job = None →
  stack job = below ++ [] :: above →
  Forall (firstGone (existsIn w)) above →
  pruneSuccessors job w = (w, inl IndexError).
Proof.
  intros Hc Hst Hall. rewrite pruneSuccessors_shell by done.
  rewrite Hst, rev_app_distr. cbn [rev]. rewrite <- app_assoc. cbn [app].
  assert (Forall (firstGone (existsIn w)) (rev above)) as Hrev.
  { apply Forall_forall. intros g Hg. rewrite Forall_forall in Hall.
    by apply Hall, list_elem_of_In, in_rev, list_elem_of_In. }
  clear Hall Hst. induction (rev above) as [|g gs IH]; [done |].
  apply Forall_cons in Hrev as [(first & rest & -> & Hex) Hrev].
  cbn [app popFinished entryExists existsKey]. by apply IH.
Qed.

Lemma pruneSuccessors_empty_group_witness :
  pruneSuccessors (set_stack [[]; [successorOf "gone"]] shellJob) staleWorld
  = (staleWorld, inl IndexError).
Proof.
  apply (pruneSuccessors_empty_group staleWorld _ [] [[successorOf "gone"]]).
  - reflexivity.
  - reflexivity.
  - repeat constructor. by eexists _, _.
Defined.

(** X17.  The worker chains only into a sole successor that fits: the
    chain check answers [Chain s] exactly when the time is not up, the top
    group of the stack is [s] alone, [s] asks for no more memory and no more
    cpu than the job has, and [s] has no predecessor ID. *)
Theorem chainCheck_chain_iff (over : bool) (job : Job) (s : Successor) :
  chainCheck over job = inr (Chain s) ↔
  over = false ∧ last (stack job) = Some [s] ∧
  (sMemory s ≤ memory job)%Z ∧ (sCpu s ≤ cpu job)%Z ∧ sPredecessorID s = None.
Proof.
  rewrite chainCheck_cases. destruct over; [by split; [|intros (? & _)] |].
  destruct (last (stack job)) as [[|s0 [|s1 g]]|];
    [by split; [|intros (_ & ? & _)] | | by split; [|intros (_ & ? & _)]
     | by split; [|intros (_ & ? & _)]].
  destruct (sMemory s0 >? memory job)%Z eqn:Hm; cbn [orb].
  { split; [done |]. intros (_ & [= ->] & Hmem & _). lia. }
  destruct (sCpu s0 >? cpu job)%Z eqn:Hcpu; cbn [orb].
  { split; [done |]. intros (_ & [= ->] & _ & Hc & _). lia. }
  case_bool_decide as Hp.
  { split; [done |]. intros (_ & [= ->] & _ & _ & Hn). done. }
  split.
  - intros [= ->]. split; [done |]. split; [done |].
    split; [lia |]. split; [lia |]. by destruct (sPredecessorID s).
  - by intros (_ & [= ->] & _).
Qed.

(** X18.  A chain step that raises has changed nothing: every test of the
    step comes before its first call, so the world after the exception is
    the world before the step, for any reading of lines 340-341. *)
Theorem chainInto_raise_changes_nothing (cls : JobClass) (job : Job)
    (s : Successor) (w w' : World) (e : exn) :
  chainInto cls job s w = (w', inl e) → w' = w.
Proof.
  unfold chainInto, bind, load, assert, raise, ret.
  destruct (jobRecords w !! sJobStoreID s) as [S|]; [|by intros [= <-]].
  destruct (memory S =? sMemory s)%Z; [|by intros [= <-]].
  destruct (cpu S =? sCpu s)%Z; [|by intros [= <-]].
  destruct (attr_predeccesors cls S) as [p|]; [|by intros [= <-]].
  destruct (bool_decide (p = [])); [|by intros [= <-]].
  destruct (attr_predeccesorNumber cls S) as [n|]; [|by intros [= <-]].
  destruct (n =? 1)%nat; [|by intros [= <-]].
  cbn [memory cpu set_stack set_command].
  destruct (memory S <=? memory job)%Z; [|by intros [= <-]].
  destruct (cpu S <=? cpu job)%Z; [|by intros [= <-]].
  done.
Qed.

Lemma chainInto_raise_changes_nothing_witness : chainWorld = chainWorld.
Proof.
  apply (chainInto_raise_changes_nothing specJobClass jobJ1
           (mkSuccessor "J2" 2 2 None) chainWorld chainWorld
           (AttributeError "predeccesors")).
  vm_compute. reflexivity.
Defined.

(** ** Runs of the worker that cannot succeed *)

Section WorkerRuns.
Variable cls : JobClass.
Variable execute : Job → M (Job * list string).
Variable timeExceeded : nat → bool.
Variable statsEnabled : bool.

Lemma tryBody_of_block fuel id w w1 localID res :
  tryBlock cls execute timeExceeded statsEnabled fuel id w
  = (w1, inr (localID, res)) →
  tryBody cls execute timeExceeded statsEnabled fuel id w = (w1, res).
Proof. intros H. unfold tryBody. by rewrite bind_run, H. Qed.

Lemma tryBlock_shell fuel id w job :
  jobRecords w !! id = Some job →
  command job = None →
  ∃ w1 e, tryBlock cls execute timeExceeded statsEnabled (S fuel) id w
          = (w1, inr (id, inl e))
          ∧ jobRecords w1 = jobRecords w.
Proof.
  intros Hj Hc.
  assert (∃ w0 res,
    (job <- load id;; job0 <- pruneSuccessors job;; clearLogFile job0) w = (w0, res)
    ∧ jobRecords w0 = jobRecords w
    ∧ match res with inr j => command j = None | inl _ => True end)
    as (w0 & res & Hpre & Hrec & Hres).
  { rewrite bind_run. unfold load at 1. rewrite Hj.
    rewrite bind_run, pruneSuccessors_shell by done.
    destruct (popFinished _ _) as [e | st]; [by eexists _, _ |].
    unfold clearLogFile. cbn [logJobStoreFileID set_stack].
    destruct (logJobStoreFileID job) as [f|].
    - rewrite bind_run. unfold deleteFile.
      destruct (jobFiles w !! f); by eexists _, _.
    - by eexists _, _. }
  unfold tryBlock. rewrite attempt_bind, Hpre. cbn [fst snd].
  destruct res as [e | job1]; [by eexists _, _ |].
  rewrite bind_run. cbn [chainLoop]. rewrite Hres, attempt_bind.
  unfold assert. destruct (length _ =? 0)%nat; cbn [ret raise fst snd];
    [|by eexists _, _].
  rewrite attempt_bind. by eexists _, _.
Qed.

Lemma main_after_failure fuel id w w1 localID e :
  tryBlock cls execute timeExceeded statsEnabled fuel id w
  = (w1, inr (localID, inl e)) →
  exitCode (main cls execute timeExceeded statsEnabled fuel id w).2 = 1 ∧
  jobRecords (main cls execute timeExceeded statsEnabled fuel id w).1 = jobRecords w1.
Proof.
  intros Hblock. rewrite (main_failed _ _ _ _ _ _ _ _ _ _ Hblock).
  destruct (jobRecords w1 !! localID) as [job|]; [|done].
  destruct (finish_failed (setupJobAfterFailure job) w1) as (e' & He & Hrec).
  destruct (finish (setupJobAfterFailure job) true w1) as [w2 res].
  simpl in He, Hrec. by subst res.
Qed.

(** X19.  A worker started on a job without command never deletes it: when
    the loop is left at line 280 [messages] has not been bound, reading it
    at lines 366 and 369 raises, and the run takes the failure path; it ends
    with a non-zero status and the records of the store are as they were. *)
Theorem worker_on_shell_fails (fuel : nat) (id : string) (w : World) (job : Job) :
  jobRecords w !! id = Some job →
  command job = None →
  exitCode (main cls execute timeExceeded statsEnabled (S fuel) id w).2 = 1 ∧
  jobRecords (main cls execute timeExceeded statsEnabled (S fuel) id w).1
  = jobRecords w.
Proof.
  intros Hj Hc.
  destruct (tryBlock_shell fuel id w job Hj Hc) as (w1 & e & Hblock & Hrec).
  rewrite <- Hrec. by apply (main_after_failure _ _ _ _ id e).
Qed.

(** X20.  A command that does not start with [scriptTree ] is never run:
    line 274 reads the unbound name [command], so the payload is not called,
    the run takes the failure path, ends with a non-zero status and leaves
    the records as they were. *)
Theorem worker_on_plain_command_fails (fuel : nat) (id : string) (w : World)
    (job : Job) (c : string) :
  jobRecords w !! id = Some job →
  command job = Some c →
  substring 0 11 c ≠ "scriptTree " →
  tryBody cls execute timeExceeded statsEnabled (S fuel) id w
  = ((clearLogFile job w).1,
     match (clearLogFile job w).2 with
     | inl e => inl e
     | inr _ => inl (NameError "command")
     end) ∧
  exitCode (main cls execute timeExceeded statsEnabled (S fuel) id w).2 = 1 ∧
  jobRecords (main cls execute timeExceeded statsEnabled (S fuel) id w).1
  = jobRecords w.
Proof.
  intros Hj Hc Hpre.
  assert (tryBlock cls execute timeExceeded statsEnabled (S fuel) id w
          = ((clearLogFile job w).1,
             inr (id, match (clearLogFile job w).2 with
                      | inl e => inl e
                      | inr _ => inl (NameError "command")
                      end))) as Hblock.
  { assert ((job0 <- load id;; job1 <- pruneSuccessors job0;; clearLogFile job1) w
            = clearLogFile job w) as Hstart.
    { rewrite bind_run. unfold load at 1. rewrite Hj.
      rewrite bind_run. unfold pruneSuccessors. by rewrite Hc. }
    unfold tryBlock. rewrite attempt_bind, Hstart.
    assert (∀ j, (clearLogFile job w).2 = inr j → command j = Some c) as Hcmd.
    { unfold clearLogFile. destruct (logJobStoreFileID job) as [f|].
      - rewrite bind_run. unfold deleteFile.
        destruct (jobFiles w !! f); [|done]. by intros j [= <-].
      - by intros j [= <-]. }
    destruct (clearLogFile job w) as [w1 [e | j]]; cbn [fst snd] in *; [done |].
    rewrite bind_run. cbn [chainLoop]. rewrite (Hcmd j eq_refl), attempt_bind.
    unfold runCommand. by rewrite bool_decide_eq_false_2. }
  split; [by apply (tryBody_of_block _ _ _ _ id) |].
  assert (jobRecords (clearLogFile job w).1 = jobRecords w) as Hrec.
  { unfold clearLogFile. destruct (logJobStoreFileID job) as [f|]; [|done].
    rewrite bind_run. unfold deleteFile. by destruct (jobFiles w !! f). }
  rewrite <- Hrec.
  destruct (clearLogFile job w) as [w1 [e | j]]; cbn [fst snd] in *;
    by eapply main_after_failure.
Qed.

(** X21.  A worker started on an ID that is not in the store makes no call
    to it: [load] raises in the body of [try] and again in the handler, and
    [NoSuchJobException] leaves [main] with the world untouched. *)
Theorem worker_on_unknown_job (fuel : nat) (id : string) (w : World) :
  jobRecords w !! id = None →
  main cls execute timeExceeded statsEnabled fuel id w
  = (w, inl (NoSuchJobException id)).
Proof.
  intros Hj.
  assert (tryBlock cls execute timeExceeded statsEnabled fuel id w
          = (w, inr (id, inl (NoSuchJobException id)))) as Hblock.
  { unfold tryBlock. rewrite attempt_bind, bind_run. unfold load. by rewrite Hj. }
  by rewrite (main_failed _ _ _ _ _ _ _ _ _ _ Hblock), Hj.
Qed.

(** X22.  What a failed run leaves in the store.  The handler reloads the
    record that the local [jobStoreID] names when the exception escapes: the
    worker's own job until a chain check has passed line 312, the successor
    of that check afterwards.  When that record is there and the local log
    exists, the tail of the log (50000 bytes at most) is stored as a new file
    owned by that record, under the next file ID, the local log is removed,
    and the run then ends on the missing [store] with every record as it was,
    so that no record names the new file.  When that record is not there the
    run ends on [NoSuchJobException] and nothing is uploaded. *)
Theorem failed_worker_uploads_log (fuel : nat) (id : string) (w w1 : World)
    (localID : string) (e : exn) (data : list byte) :
  tryBlock cls execute timeExceeded statsEnabled fuel id w
  = (w1, inr (localID, inl e)) →
  workerLog w1 = Some data →
  let r := main cls execute timeExceeded statsEnabled fuel id w in
  match jobRecords w1 !! localID with
  | Some job =>
      r.2 = inl (AttributeError "store") ∧
      jobFiles r.1
      = <[nextFileID w1 := (jobStoreID job, truncateData 50000 data)]> (jobFiles w1) ∧
      nextFileID r.1 = N.succ (nextFileID w1) ∧
      workerLog r.1 = None ∧
      jobRecords r.1 = jobRecords w1 ∧
      trace r.1 = trace w1 ++ [EvWriteFile (nextFileID w1)]
  | None => r = (w1, inl (NoSuchJobException localID))
  end.
Proof.
  intros Hblock Hlog r. subst r.
  rewrite (main_failed _ _ _ _ _ _ _ _ _ _ Hblock).
  destruct (jobRecords w1 !! localID) as [job|]; [|done].
  unfold finish. generalize 50000%nat. intros tooBig.
  rewrite bind_run, bind_run. unfold truncateFile. rewrite Hlog.
  rewrite bind_run. unfold setLogFile. rewrite bind_run.
  cbn [get workerLog set_workerLog]. rewrite bind_run.
  by cbn -[truncateData].
Qed.
End WorkerRuns.

Lemma worker_on_shell_fails_witness :
  exitCode (main specJobClass quietPayload neverOver false 1 "J"
              (set_jobRecords {["J" := shellJob]} staleWorld)).2 = 1 ∧
  jobRecords (main specJobClass quietPayload neverOver false 1 "J"
                (set_jobRecords {["J" := shellJob]} staleWorld)).1
  = jobRecords (set_jobRecords {["J" := shellJob]} staleWorld).
Proof.
  apply (worker_on_shell_fails specJobClass quietPayload neverOver false 0 "J"
           (set_jobRecords {["J" := shellJob]} staleWorld) shellJob);
    reflexivity.
Defined.

Lemma worker_on_plain_command_fails_witness :
  exitCode (main specJobClass quietPayload neverOver false 1 "J"
              (set_jobRecords {["J" := set_command (Some "ls -l") shellJob]}
                 staleWorld)).2 = 1.
Proof.
  destruct (worker_on_plain_command_fails specJobClass quietPayload neverOver false
              0 "J" (set_jobRecords {["J" := set_command (Some "ls -l") shellJob]}
                       staleWorld)
              (set_command (Some "ls -l") shellJob) "ls -l") as (_ & H & _);
    [reflexivity | reflexivity | discriminate | exact H].
Defined.

Lemma worker_on_unknown_job_witness :
  main specJobClass quietPayload neverOver false 1 "nobody" chainWorld
  = (chainWorld, inl (NoSuchJobException "nobody")).
Proof.
  apply (worker_on_unknown_job specJobClass quietPayload neverOver false 1
           "nobody" chainWorld).
  reflexivity.
Defined.

(** The run of C8: the chain check of [J1] has bound the local
    [jobStoreID] to [J2] when the chain step raises, and the log of the
    worker started on [J1] is filed under [J2]. *)
Lemma failed_worker_uploads_log_witness :
  let r := main specJobClass quietPayload neverOver false 10 "J1" chainWorld in
  r.2 = inl (AttributeError "store") ∧
  jobFiles r.1 = <[0%N := ("J2", truncateData 50000 [x41; x42]%byte)]> (jobFiles chainWorld) ∧
  nextFileID r.1 = N.succ 0%N ∧
  workerLog r.1 = None ∧
  jobRecords r.1 = jobRecords chainWorld ∧
  trace r.1 = [] ++ [EvWriteFile 0%N].
Proof.
  apply (failed_worker_uploads_log specJobClass quietPayload neverOver false
           10 "J1" chainWorld chainWorld "J2" (AttributeError "predeccesors")
           [x41; x42]%byte);
    reflexivity.
Defined.

(** X23.  A run whose body returns with a job that still has a command or a
    non-empty stack makes no further call: the job stays in the store for
    the leader and the worker ends with status 0. *)
Theorem worker_yield_keeps_job (cls : JobClass)
    (execute : Job → M (Job * list string)) (timeExceeded : nat → bool)
    (statsEnabled : bool) (fuel : nat) (id : string) (w w1 : World) (job : Job) :
  tryBody cls execute timeExceeded statsEnabled fuel id w = (w1, inr (Some job)) →
  command job ≠ None ∨ stack job ≠ [] →
  main cls execute timeExceeded statsEnabled fuel id w = (w1, inr (Some tt)) ∧
  exitCode (main cls execute timeExceeded statsEnabled fuel id w).2 = 0.
Proof.
  intros Hbody Hleft.
  assert (main cls execute timeExceeded statsEnabled fuel id w = (w1, inr (Some tt))) as ->.
  { destruct (tryBody_run cls execute timeExceeded statsEnabled fuel id w)
      as (w1' & localID & res & Hblock & Hbody').
    rewrite Hbody in Hbody'. injection Hbody' as <- <-.
    unfold main. rewrite bind_run, Hblock. rewrite bind_run.
    unfold finish. rewrite bind_run. cbn [ret negb andb].
    destruct Hleft as [Hc | Hs].
    - by rewrite bool_decide_eq_false_2.
    - destruct (stack job); [done |]. by rewrite andb_false_r. }
  done.
Qed.

Lemma worker_yield_keeps_job_witness :
  exitCode (main specJobClass (λ job, ret (job, [])) (λ _, true) false 5 "J1"
              chainWorld).2 = 0.
Proof.
  destruct (worker_yield_keeps_job specJobClass (λ job, ret (job, []))
              (λ _, true) false 5 "J1" chainWorld chainWorld jobJ1) as (_ & H).
  - vm_compute. reflexivity.
  - left. discriminate.
  - exact H.
Defined.

(** ** The order of the sweep's calls *)

Lemma deletesIn_app (a b : list Event) :
  deletesIn (a ++ b) = (deletesIn a + deletesIn b)%nat.
Proof. unfold deletesIn. by rewrite List.filter_app, length_app. Qed.

Lemma deleteLoop_trace U (js : list Job) w :
  ∃ dels, trace (forEach js (deleteBody U) w).1 = trace w ++ dels
          ∧ deletesIn dels = length dels.
Proof.
  revert w. induction js as [|j js IH]; intros w; simpl.
  - exists []. by rewrite app_nil_r.
  - rewrite bind_run, deleteBody_run. case_bool_decide; [|apply IH].
    destruct (IH (emit (EvDelete (jobStoreID j))
                    (set_jobFiles (filter (λ kv, kv.2.1 ≠ jobStoreID j) (jobFiles w))
                       (set_jobRecords (delete (jobStoreID j) (jobRecords w)) w))))
      as (dels & Ht & Hd).
    exists (EvDelete (jobStoreID j) :: dels). split.
    + rewrite Ht. cbn. by rewrite <- app_assoc.
    + unfold deletesIn in *. cbn. by rewrite Hd.
Qed.

Lemma cleanLoop_trace (js : list Job) v :
  ∃ rest, trace (forEach js cleanJob v).1 = trace v ++ rest ∧ deletesIn rest = 0%nat.
Proof.
  revert v. induction js as [|j js IH]; intros v; simpl.
  - exists []. by rewrite app_nil_r.
  - rewrite bind_run.
    assert (∃ r1, trace (cleanJob j v).1 = trace v ++ r1 ∧ deletesIn r1 = 0%nat)
      as (r1 & Ht1 & Hd1).
    { rewrite cleanJob_run. cbv zeta.
      destruct (logJobStoreFileID _) as [f|].
      - destruct (jobFiles v !! f).
        + eexists [_; _]. cbn. by rewrite <- app_assoc.
        + exists []. by rewrite app_nil_r.
      - destruct (_ : bool).
        + by eexists [_].
        + exists []. by rewrite app_nil_r. }
    destruct (cleanJob j v) as [v1 [e | []]]; cbn [fst] in *; [by exists r1 |].
    destruct (IH v1) as (r2 & Ht2 & Hd2).
    exists (r1 ++ r2). split; [by rewrite Ht2, Ht1, app_assoc |].
    by rewrite deletesIn_app, Hd1, Hd2.
Qed.

(** X24.  The sweep deletes first: the calls of one sweep are some calls
    of [delete], all of them from the second loop, followed by calls that
    are not [delete], whatever the outcome. *)
Theorem clean_deletes_first (w : World) :
  ∃ dels rest,
    trace (_clean w).1 = trace w ++ dels ++ rest ∧
    deletesIn dels = length dels ∧ deletesIn rest = 0%nat.
Proof.
  unfold _clean, started. rewrite bind_run.
  destruct (rootCreated w).
  2: { exists [], []. by rewrite app_nil_r. }
  rewrite bind_run. cbn [jobs]. rewrite bind_run.
  assert (∃ dels, trace (deletePhase (collate (jobsOf w)) w).1 = trace w ++ dels
                  ∧ deletesIn dels = length dels) as (dels & Ht & Hd).
  { unfold deletePhase. destruct (0 <? _)%nat.
    - rewrite bind_run. cbn [jobs]. apply deleteLoop_trace.
    - exists []. by rewrite app_nil_r. }
  destruct (deletePhase _ w) as [w0 [e | []]]; cbn [fst] in *.
  - exists dels, []. by rewrite app_nil_r.
  - unfold cleanPhase. rewrite bind_run. cbn [jobs].
    destruct (cleanLoop_trace (jobsOf w0) w0) as (rest & Ht2 & Hd2).
    exists dels, rest. by rewrite Ht2, Ht, app_assoc.
Qed.

(** ** Opening a store *)

Section InitEdges.
Context {Element : Type}.
Variable serialize : Element → list byte.
Variable parse : list byte → option Element.

(** X25.  A store opened without a configuration object first reads
    [config.xml]: when the shared file is missing or does not parse, the
    constructor raises before the sweep and has made no call to the
    store. *)
Theorem init_without_config (w : World) :
  (sharedFiles w !! "config.xml" = None →
   __init__ serialize parse None w = (w, inl (NoSuchSharedFile "config.xml"))) ∧
  (∀ c, sharedFiles w !! "config.xml" = Some c → parse c = None →
        __init__ serialize parse None w = (w, inl ParseError)).
Proof.
  split.
  - intros H. unfold __init__, readConfig, readSharedFileStream.
    by rewrite !bind_run, H.
  - intros c H Hp. unfold __init__, readConfig, readSharedFileStream.
    by rewrite !bind_run, H, Hp.
Qed.
End InitEdges.

(** ** Names of shared files, once more *)

(** X26.  Every name made of characters of the class is accepted, the empty
    name is not, and an accepted name is such a name as it stands or once
    its last character, a newline, is taken off. *)
Theorem validate_accepts_exactly (name : string) :
  (validName name → _validateSharedFileName name = true) ∧
  _validateSharedFileName EmptyString = false ∧
  (_validateSharedFileName name = true →
   ∃ p, validName p ∧ (name = p ∨ name = p +:+ String newline EmptyString)).
Proof.
  split; [|split; [done |]].
  - intros H. apply validate_spec. by left.
  - intros [H | (p & Hp & ->)]%validate_spec.
    + exists name. split; [done | by left].
    + exists p. split; [done | by right].
Qed.
